(** * Submitter supervisor: configuration resolution and worker supervision

    A shallow embedding of [src/submitter/submitter.service.ts]
    (class [SubmitterService]) and the properties of its configuration
    resolver and worker lifecycle.

    Modelling conventions.
    - A JavaScript value read from the configuration is a [JsValue]; the
      code only moves such values around, tests them for nullishness
      ([??]) and, for [enabled], for truthiness.
    - A [Record<string, number>] is an ordinary object: the finite map of
      its own properties, living in a heap of objects addressed by
      references, so that in-place mutation and aliasing are visible. An
      assignment to the key ["__proto__"] is the one that does not simply
      add an own property.
    - A JavaScript [Map] is an insertion-ordered association list with
      unique keys.
    - The submitter section of the relayer configuration and the
      submitter sub-section of a chain configuration may be [undefined]
      where the two loaders read them; a property read on [undefined]
      throws a [TypeError].
    - A method that may throw returns a [Completion]; methods run in a
      state-and-exception monad over the state they touch. *)

From stdpp Require Import base option list strings gmap fin_maps pretty.
From Stdlib Require Import ZArith.

Local Open Scope Z_scope.

(** ** JavaScript values *)

Inductive JsValue : Type :=
  | JUndefined
  | JNull
  | JBool (b : bool)
  | JNumber (n : Z)
  | JNaN
  | JString (s : string).

#[global] Instance JsValue_eq_dec : EqDecision JsValue.
Proof. solve_decision. Defined.

(** [a == null], the test behind the [??] operator. *)
Definition is_nullish (v : JsValue) : bool :=
  match v with
  | JUndefined | JNull => true
  | _ => false
  end.

(** [a ?? b] *)
Definition nullish_coalesce (a b : JsValue) : JsValue :=
  if is_nullish a then b else a.

Infix "??" := nullish_coalesce (at level 45, left associativity).

(** [ToBoolean]: the falsy values are [undefined], [null], [false], [0],
    [NaN] and the empty string. *)
Definition to_boolean (v : JsValue) : bool :=
  match v with
  | JUndefined | JNull | JNaN => false
  | JBool b => b
  | JNumber n => negb (Z.eqb n 0)
  | JString s => negb (String.eqb s "")
  end.

(** ** Completions and the state-and-exception monad *)

Definition JsError : Type := string.

Inductive Completion (A : Type) : Type :=
  | Normal (a : A)
  | Throw (e : JsError).
Arguments Normal {A} a.
Arguments Throw {A} e.

Definition Eff (S A : Type) : Type := S → Completion A * S.

Definition eff_ret {S A} (a : A) : Eff S A := λ s, (Normal a, s).

Definition eff_bind {S A B} (m : Eff S A) (k : A → Eff S B) : Eff S B :=
  λ s, match m s with
       | (Normal a, s') => k a s'
       | (Throw e, s') => (Throw e, s')
       end.

Definition eff_throw {S A} (e : JsError) : Eff S A := λ s, (Throw e, s).
Definition eff_get {S} : Eff S S := λ s, (Normal s, s).
Definition eff_modify {S} (f : S → S) : Eff S unit := λ s, (Normal tt, f s).

(** A call into code that does not touch the state. *)
Definition eff_call {S A} (c : Completion A) : Eff S A := λ s, (c, s).

(** Run a block on a local variable [init]; the value of the variable
    at the end is the result, a throw leaves the block. *)
Definition eff_local {S T} (init : T) (m : Eff T unit) : Eff S T :=
  λ s, match m init with
       | (Normal _, t) => (Normal t, s)
       | (Throw e, _) => (Throw e, s)
       end.

(** Run a computation on a component of the state. *)
Definition eff_zoom {S T A} (proj : S → T) (upd : T → S → S)
    (m : Eff T A) : Eff S A :=
  λ s, let '(r, t) := m (proj s) in (r, upd t s).

Notation "x ←ₑ m ; k" := (eff_bind m (λ x, k))
  (at level 100, m at next level, right associativity,
   format "x  ←ₑ  m ;  '/' k").
Notation "m ;;ₑ k" := (eff_bind m (λ _, k))
  (at level 100, right associativity).

(** ** Objects used as records, and the heap *)

Abbreviation JsRecord := (gmap string JsValue).
Abbreviation Ref := nat.
Abbreviation Heap := (list JsRecord).

(** The object a reference points to. *)
Definition deref (h : Heap) (r : Ref) : JsRecord := default ∅ (h !! r).

(** [{}] : allocate a fresh empty object. *)
Definition new_object : Eff Heap Ref :=
  λ h, (Normal (length h), h ++ [∅]).

(** [key in obj], for a key that [Object.prototype] does not define (the
    service asks for ["default"] only). *)
Definition has_property (r : Ref) (key : string) : Eff Heap bool :=
  λ h, (Normal (bool_decide (is_Some (deref h r !! key))), h).

(** [obj[key]], for a key the object owns (the loops read the keys they
    enumerate); a key owned by nobody reads as [undefined]. *)
Definition get_property (r : Ref) (key : string) : Eff Heap JsValue :=
  λ h, (Normal (default JUndefined (deref h r !! key)), h).

(** What [obj[key] = v] does to the own properties of an ordinary
    object. For every key but ["__proto__"] the own property is created
    or updated. An own property ["__proto__"] is updated like any other;
    without one, the assignment reaches the accessor inherited from
    [Object.prototype], whose setter ignores a primitive value, so that
    no own property appears. (The records hold numbers. A [null] there
    would detach the prototype, which adds no own property either; the
    heap does not record prototypes.) *)
Definition assign_property (key : string) (v : JsValue) (obj : JsRecord)
    : JsRecord :=
  if decide (key = "__proto__") then
    match obj !! "__proto__" with
    | Some _ => <[key := v]> obj
    | None => obj
    end
  else <[key := v]> obj.

(** [obj[key] = v] *)
Definition set_property (r : Ref) (key : string) (v : JsValue) : Eff Heap unit :=
  eff_modify (alter (assign_property key v) r).

(** The property names [for ... in] enumerates: the own keys of the
    record, an own ["__proto__"] included ([Object.prototype] has no
    enumerable property). The order in which the loop visits them does
    not influence the record it builds. *)
Definition own_keys (r : Ref) : Eff Heap (list string) :=
  λ h, (Normal (map_to_list (deref h r)).*1, h).

(** Loop body run once per element, stopping at the first throw. *)
Fixpoint eff_for_each {S A} (body : A → Eff S unit) (l : list A) : Eff S unit :=
  match l with
  | [] => eff_ret tt
  | x :: rest => body x ;;ₑ eff_for_each body rest
  end.

(** [for (const key in obj) body] *)
Definition for_in (r : Ref) (body : string → Eff Heap unit) : Eff Heap unit :=
  keys ←ₑ own_keys r; eff_for_each body keys.

(** ** Constants of the module *)

Definition RETRY_INTERVAL_DEFAULT : Z := 2000.
Definition PROCESSING_INTERVAL_DEFAULT : Z := 100.
Definition MAX_TRIES_DEFAULT : Z := 3.
Definition MAX_PENDING_TRANSACTIONS : Z := 1000.
Definition NEW_ORDERS_DELAY_DEFAULT : Z := 0.
Definition TRANSACTION_TIMEOUT_DEFAULT : Z := 10 * 60000.

(** ** Configuration types *)

(** Modelled from the spec: [RelayerConfig] is declared in
    [src/config/config.service], which this file only imports. A
    [submitter] section is an object whose properties are all optional
    (a missing property reads as [undefined]), [{}] when nothing is
    configured. [gasLimitBuffer] is either nullish ([None]) or a
    reference to a record of numbers. *)
Record RawSubmitterConfig : Type := {
  raw_enabled : JsValue;
  raw_newOrdersDelay : JsValue;
  raw_retryInterval : JsValue;
  raw_processingInterval : JsValue;
  raw_maxTries : JsValue;
  raw_maxPendingTransactions : JsValue;
  raw_transactionTimeout : JsValue;
  raw_gasLimitBuffer : option Ref;
}.

(** The value found at [relayerConfig.submitter]: the section object, or
    [undefined] when the relayer configuration has no submitter section.
    A section object is read as such a value where one is expected. *)
Inductive SectionValue : Type :=
  | SectionUndefined
  | SectionObject (section : RawSubmitterConfig).

Coercion SectionObject : RawSubmitterConfig >-> SectionValue.

(** The exception of a property read on [undefined]. *)
Definition TypeError_undefined (property : string) : JsError :=
  "TypeError: Cannot read properties of undefined (reading '"
    +:+ property +:+ "')".

(** The first read [submitterConfig[property]]: it throws on
    [undefined], and on an object gives access to its properties. *)
Definition read_section {S} (submitterConfig : SectionValue)
    (property : string) : Eff S RawSubmitterConfig :=
  match submitterConfig with
  | SectionObject section => eff_ret section
  | SectionUndefined => eff_throw (TypeError_undefined property)
  end.

Record GlobalSubmitterConfig : Type := {
  enabled : JsValue;
  g_newOrdersDelay : JsValue;
  g_retryInterval : JsValue;
  g_processingInterval : JsValue;
  g_maxTries : JsValue;
  g_maxPendingTransactions : JsValue;
  g_transactionTimeout : JsValue;
  g_gasLimitBuffer : Ref;
}.

(** ** [loadGlobalSubmitterConfig] *)

Definition loadGlobalSubmitterConfig (submitterConfig : SectionValue)
    : Eff Heap GlobalSubmitterConfig :=
  submitterConfig ←ₑ read_section submitterConfig "enabled";
  let enabled := raw_enabled submitterConfig ?? JBool true in
  let newOrdersDelay :=
    raw_newOrdersDelay submitterConfig ?? JNumber NEW_ORDERS_DELAY_DEFAULT in
  let retryInterval :=
    raw_retryInterval submitterConfig ?? JNumber RETRY_INTERVAL_DEFAULT in
  let processingInterval :=
    raw_processingInterval submitterConfig ?? JNumber PROCESSING_INTERVAL_DEFAULT in
  let maxTries := raw_maxTries submitterConfig ?? JNumber MAX_TRIES_DEFAULT in
  let maxPendingTransactions :=
    raw_maxPendingTransactions submitterConfig ?? JNumber MAX_PENDING_TRANSACTIONS in
  let transactionTimeout :=
    raw_transactionTimeout submitterConfig ?? JNumber TRANSACTION_TIMEOUT_DEFAULT in
  gasLimitBuffer ←ₑ match raw_gasLimitBuffer submitterConfig with
                    | Some r => eff_ret r
                    | None => new_object
                    end;
  present ←ₑ has_property gasLimitBuffer "default";
  (if negb present
   then set_property gasLimitBuffer "default" (JNumber 0)
   else eff_ret tt) ;;ₑ
  eff_ret {| enabled := enabled;
             g_newOrdersDelay := newOrdersDelay;
             g_retryInterval := retryInterval;
             g_processingInterval := processingInterval;
             g_maxTries := maxTries;
             g_maxPendingTransactions := maxPendingTransactions;
             g_transactionTimeout := transactionTimeout;
             g_gasLimitBuffer := gasLimitBuffer |}.

(** ** [getChainGasLimitBufferConfig] *)

Definition getChainGasLimitBufferConfig
    (defaultGasLimitBufferConfig chainGasLimitBufferConfig : Ref)
    : Eff Heap Ref :=
  gasLimitBuffers ←ₑ new_object;
  (* Apply defaults *)
  for_in defaultGasLimitBufferConfig (λ key,
    v ←ₑ get_property defaultGasLimitBufferConfig key;
    set_property gasLimitBuffers key v) ;;ₑ
  (* Apply chain overrides *)
  for_in chainGasLimitBufferConfig (λ key,
    v ←ₑ get_property chainGasLimitBufferConfig key;
    set_property gasLimitBuffers key v) ;;ₑ
  eff_ret gasLimitBuffers.

(** ** JavaScript [Map] *)

Definition JsMap (V : Type) : Type := list (string * V).

(** [map.set(k, v)]: an existing key keeps its position and takes the
    new value, a new key goes last. *)
Fixpoint js_map_set {V} (k : string) (v : V) (m : JsMap V) : JsMap V :=
  match m with
  | [] => [(k, v)]
  | (k', v') :: rest =>
      if decide (k = k') then (k', v) :: rest
      else (k', v') :: js_map_set k v rest
  end.

(** [map.get(k)] *)
Fixpoint js_map_get {V} (k : string) (m : JsMap V) : option V :=
  match m with
  | [] => None
  | (k', v') :: rest => if decide (k = k') then Some v' else js_map_get k rest
  end.

(** [map.size] *)
Definition js_map_size {V} (m : JsMap V) : nat := length m.

(** ** Collaborators: adapters, chains, the configuration service *)

(** Modelled from the spec: the adapter descriptors are declared in
    [src/config/config.service]. The service uses [amb.name] and the
    lookup [amb.getIncentivesAddress(chainId)], which throws when the
    adapter has no address for the chain. *)
Record AMBConfig : Type := {
  name : string;
  getIncentivesAddress : string → Completion string;
}.

(** Modelled from the spec: [ChainConfig] is declared in
    [src/config/config.service]. A sub-section [chainConfig.submitter]
    holds the per-chain overrides, each possibly missing; a chain
    without overrides has [{}] there. *)
Record ChainSubmitterConfig : Type := {
  chain_newOrdersDelay : JsValue;
  chain_retryInterval : JsValue;
  chain_processingInterval : JsValue;
  chain_maxTries : JsValue;
  chain_maxPendingTransactions : JsValue;
  chain_transactionTimeout : JsValue;
  chain_gasLimitBuffer : option Ref;
  chain_maxFeePerGas : JsValue;
  chain_maxPriorityFeeAdjustmentFactor : JsValue;
  chain_maxAllowedPriorityFeePerGas : JsValue;
  chain_gasPriceAdjustmentFactor : JsValue;
  chain_maxAllowedGasPrice : JsValue;
}.

Record ChainConfig : Type := {
  chainId : string;
  rpc : string;
  submitter : ChainSubmitterConfig;
}.

(** The [chainConfig] argument as [loadWorkerConfig] may find it: like a
    [ChainConfig], but with [chainConfig.submitter] possibly [undefined]
    ([None]). A [ChainConfig] is read as such a value, its sub-section
    present, where one is expected. *)
Record ChainConfigValue : Type := {
  cv_chainId : string;
  cv_rpc : string;
  cv_submitter : option ChainSubmitterConfig;
}.

(** A chain configuration with its sub-section, as the argument of
    [loadWorkerConfig]. *)
Definition chain_value (chainConfig : ChainConfig) : ChainConfigValue :=
  {| cv_chainId := chainId chainConfig;
     cv_rpc := rpc chainConfig;
     cv_submitter := Some (submitter chainConfig) |}.

Coercion chain_value : ChainConfig >-> ChainConfigValue.

(** The first read [chainConfig.submitter.property]: it throws when the
    sub-section is [undefined]. *)
Definition read_submitter {S} (section : option ChainSubmitterConfig)
    (property : string) : Eff S ChainSubmitterConfig :=
  match section with
  | Some submitter => eff_ret submitter
  | None => eff_throw (TypeError_undefined property)
  end.

(** A relayer configuration that has its [submitter] section. *)
Record RelayerConfig : Type := {
  privateKey : string;
  relayer_submitter : RawSubmitterConfig;
}.

(** [this.configService], as far as the service reads it.
    [chainsConfig] is iterated as a [Map] whose values are the chain
    configurations; [ambsConfig] is the collection of adapters in the
    order [forEach] visits them. A [ConfigService] holds a relayer
    configuration and chain configurations whose submitter sections are
    present; what the two loaders do without them is part of the loaders
    themselves. *)
Record ConfigService : Type := {
  relayerConfig : RelayerConfig;
  chainsConfig : JsMap ChainConfig;
  ambsConfig : list AMBConfig;
}.

(** The logger options object, handed to every worker untouched. *)
Abbreviation LoggerOptions := Ref.

Record SubmitterWorkerData : Type := {
  wd_chainId : string;
  wd_rpc : string;
  wd_relayerPrivateKey : string;
  wd_incentivesAddresses : JsMap string;
  wd_newOrdersDelay : JsValue;
  wd_retryInterval : JsValue;
  wd_processingInterval : JsValue;
  wd_maxTries : JsValue;
  wd_maxPendingTransactions : JsValue;
  wd_transactionTimeout : JsValue;
  wd_gasLimitBuffer : Ref;
  wd_maxFeePerGas : JsValue;
  wd_maxPriorityFeeAdjustmentFactor : JsValue;
  wd_maxAllowedPriorityFeePerGas : JsValue;
  wd_gasPriceAdjustmentFactor : JsValue;
  wd_maxAllowedGasPrice : JsValue;
  wd_loggerOptions : LoggerOptions;
}.

(** ** [loadWorkerConfig] *)

Definition loadWorkerConfig (configService : ConfigService)
    (loggerOptions : LoggerOptions)
    (chainConfig : ChainConfigValue) (globalConfig : GlobalSubmitterConfig)
    : Eff Heap SubmitterWorkerData :=
  let chainId := cv_chainId chainConfig in
  let rpc := cv_rpc chainConfig in
  let relayerPrivateKey := privateKey (relayerConfig configService) in
  incentivesAddresses ←ₑ eff_local []
    (eff_for_each (λ amb,
       address ←ₑ eff_call (getIncentivesAddress amb chainId);
       eff_modify (js_map_set (name amb) address))
     (ambsConfig configService));
  submitter ←ₑ read_submitter (cv_submitter chainConfig) "newOrdersDelay";
  chainGasLimitBuffer ←ₑ match chain_gasLimitBuffer submitter with
                         | Some r => eff_ret r
                         | None => new_object
                         end;
  gasLimitBuffer ←ₑ getChainGasLimitBufferConfig
                      (g_gasLimitBuffer globalConfig) chainGasLimitBuffer;
  eff_ret {|
    wd_chainId := chainId;
    wd_rpc := rpc;
    wd_relayerPrivateKey := relayerPrivateKey;
    wd_incentivesAddresses := incentivesAddresses;
    wd_newOrdersDelay :=
      chain_newOrdersDelay submitter ?? g_newOrdersDelay globalConfig;
    wd_retryInterval :=
      chain_retryInterval submitter ?? g_retryInterval globalConfig;
    wd_processingInterval :=
      chain_processingInterval submitter ?? g_processingInterval globalConfig;
    wd_maxTries := chain_maxTries submitter ?? g_maxTries globalConfig;
    wd_maxPendingTransactions :=
      chain_maxPendingTransactions submitter
        ?? g_maxPendingTransactions globalConfig;
    wd_transactionTimeout :=
      chain_transactionTimeout submitter ?? g_transactionTimeout globalConfig;
    wd_gasLimitBuffer := gasLimitBuffer;
    wd_maxFeePerGas := chain_maxFeePerGas submitter;
    wd_maxPriorityFeeAdjustmentFactor :=
      chain_maxPriorityFeeAdjustmentFactor submitter;
    wd_maxAllowedPriorityFeePerGas :=
      chain_maxAllowedPriorityFeePerGas submitter;
    wd_gasPriceAdjustmentFactor := chain_gasPriceAdjustmentFactor submitter;
    wd_maxAllowedGasPrice := chain_maxAllowedGasPrice submitter;
    wd_loggerOptions := loggerOptions;
  |}.

(** ** The logger, worker threads and the service state *)

Inductive LogLevel : Type :=
  | LTrace | LDebug | LInfo | LWarn | LError | LFatal.

Record LogEntry : Type := {
  level : LogLevel;
  log_error : option JsError;
  message : string;
}.

(** The listener [(error) => this.loggerService.fatal(error, ...)]
    with the chain id it closes over. *)
Record ErrorListener : Type := { el_chainId : string }.

(** The listener [(exitCode) => this.loggerService.fatal(...)] with the
    chain id it closes over. *)
Record ExitListener : Type := { xl_chainId : string }.

(** A [Worker] object: the data it was started with and the listeners
    registered on it. *)
Record Worker : Type := {
  workerData : SubmitterWorkerData;
  errorListeners : list ErrorListener;
  exitListeners : list ExitListener;
}.

Abbreviation WorkerRef := nat.

(** The state the service acts on: the object heap, the worker threads
    created so far (a [WorkerRef] is an index into them), the
    [this.workers] map and the log written through the logger service. *)
Record ServiceState : Type := {
  heap : Heap;
  threads : list Worker;
  workers : JsMap WorkerRef;
  logs : list LogEntry;
}.

Definition with_heap (h : Heap) (s : ServiceState) : ServiceState :=
  {| heap := h; threads := threads s; workers := workers s; logs := logs s |}.
Definition with_threads (t : list Worker) (s : ServiceState) : ServiceState :=
  {| heap := heap s; threads := t; workers := workers s; logs := logs s |}.
Definition with_workers (w : JsMap WorkerRef) (s : ServiceState) : ServiceState :=
  {| heap := heap s; threads := threads s; workers := w; logs := logs s |}.
Definition with_logs (l : list LogEntry) (s : ServiceState) : ServiceState :=
  {| heap := heap s; threads := threads s; workers := workers s; logs := l |}.

Definition on_heap {A} (m : Eff Heap A) : Eff ServiceState A :=
  eff_zoom heap with_heap m.

(** [this.loggerService.info(msg)] *)
Definition logger_info (msg : string) : Eff ServiceState unit :=
  eff_modify (λ s, with_logs
    (logs s ++ [{| level := LInfo; log_error := None; message := msg |}]) s).

(** [this.loggerService.fatal(error, msg)] and [fatal(msg)] *)
Definition logger_fatal (error : option JsError) (msg : string)
    : Eff ServiceState unit :=
  eff_modify (λ s, with_logs
    (logs s ++ [{| level := LFatal; log_error := error; message := msg |}]) s).

(** [new Worker(file, { workerData })] *)
Definition new_worker (data : SubmitterWorkerData) : Eff ServiceState WorkerRef :=
  λ s, (Normal (length (threads s)),
        with_threads (threads s ++
          [{| workerData := data; errorListeners := []; exitListeners := [] |}]) s).

(** [worker.on('error', listener)] *)
Definition worker_on_error (w : WorkerRef) (l : ErrorListener)
    : Eff ServiceState unit :=
  eff_modify (λ s, with_threads (alter (λ wk,
    {| workerData := workerData wk;
       errorListeners := errorListeners wk ++ [l];
       exitListeners := exitListeners wk |}) w (threads s)) s).

(** [worker.on('exit', listener)] *)
Definition worker_on_exit (w : WorkerRef) (l : ExitListener)
    : Eff ServiceState unit :=
  eff_modify (λ s, with_threads (alter (λ wk,
    {| workerData := workerData wk;
       errorListeners := errorListeners wk;
       exitListeners := exitListeners wk ++ [l] |}) w (threads s)) s).

(** [this.workers.set(chainId, worker)] *)
Definition workers_set (chainId : string) (w : WorkerRef) : Eff ServiceState unit :=
  eff_modify (λ s, with_workers (js_map_set chainId w (workers s)) s).

(** ** [onModuleInit] *)

Definition onModuleInit (configService : ConfigService)
    (loggerOptions : LoggerOptions) : Eff ServiceState unit :=
  logger_info "Starting the submitter on all chains..." ;;ₑ
  globalSubmitterConfig ←ₑ
    on_heap (loadGlobalSubmitterConfig
               (relayer_submitter (relayerConfig configService)));
  (* check if the submitter has been disabled. *)
  if negb (to_boolean (enabled globalSubmitterConfig)) then
    logger_info "Submitter has been disabled. Ending init early"
  else
    (* Initialize the submitter states *)
    eff_for_each (λ entry : string * ChainConfig,
      let chainConfig := entry.2 in
      workerData ←ₑ on_heap (loadWorkerConfig configService loggerOptions
                               chainConfig globalSubmitterConfig);
      worker ←ₑ new_worker workerData;
      worker_on_error worker {| el_chainId := chainId chainConfig |} ;;ₑ
      worker_on_exit worker {| xl_chainId := chainId chainConfig |} ;;ₑ
      workers_set (chainId chainConfig) worker)
    (chainsConfig configService).

(** ** Worker events

    The runtime reports a fault of a worker thread by emitting ['error']
    on its [Worker] object and its termination by emitting ['exit'];
    emitting runs the listeners registered for that event, in order. *)

Definition run_error_listener (l : ErrorListener) (error : JsError)
    : Eff ServiceState unit :=
  logger_fatal (Some error)
    ("Error on submitter worker (chain " +:+ el_chainId l +:+ ").").

Definition number_to_string (n : Z) : string := pretty n.

Definition run_exit_listener (l : ExitListener) (exitCode : Z)
    : Eff ServiceState unit :=
  logger_fatal None
    ("Submitter worker exited with code " +:+ number_to_string exitCode
       +:+ " (chain " +:+ xl_chainId l +:+ ").").

Inductive WorkerEvent : Type :=
  | EvError (error : JsError)
  | EvExit (exitCode : Z).

Definition emit (w : WorkerRef) (ev : WorkerEvent) : Eff ServiceState unit :=
  s ←ₑ eff_get;
  match threads s !! w with
  | None => eff_ret tt
  | Some wk =>
      match ev with
      | EvError error =>
          eff_for_each (λ l, run_error_listener l error) (errorListeners wk)
      | EvExit exitCode =>
          eff_for_each (λ l, run_exit_listener l exitCode) (exitListeners wk)
      end
  end.

Definition initial_state (h : Heap) : ServiceState :=
  {| heap := h; threads := []; workers := []; logs := [] |}.

(** * Specification vocabulary and example configurations *)

(** A reference that points to an allocated object. *)
Definition valid_ref (h : Heap) (r : Ref) : Prop := (r < length h)%nat.

(** What a copying loop [for (key of ks) dst[key] = src[key]] computes
    on the record behind [dst]. *)
Definition copy_keys (from : JsRecord) (ks : list string) (into : JsRecord)
    : JsRecord :=
  foldl (λ m k, assign_property k (default JUndefined (from !! k)) m) into ks.

(** The entries of a record that a copying loop carries over to an
    object without an own ["__proto__"]: all but the one under that
    key. *)
Definition transferable (m : JsRecord) : JsRecord := delete "__proto__" m.

(** The record behind the global [gasLimitBuffer] after resolution. *)
Definition ensure_default (m : JsRecord) : JsRecord :=
  if bool_decide (is_Some (m !! "default")) then m
  else <["default" := JNumber 0]> m.

(** The [forEach] over the adapters, acting on the local
    [incentivesAddresses] map. *)
Definition collect_incentives (ambs : list AMBConfig) (chain : string)
    : Eff (JsMap string) unit :=
  eff_for_each (λ amb,
    address ←ₑ eff_call (getIncentivesAddress amb chain);
    eff_modify (js_map_set (name amb) address)) ambs.

(** The chain-level [gasLimitBuffer] record, [{}] when the chain has
    none. *)
Definition chain_record (h : Heap) (chainConfig : ChainConfig) : JsRecord :=
  match chain_gasLimitBuffer (submitter chainConfig) with
  | Some r => deref h r
  | None => ∅
  end.

(** The chain-level [gasLimitBuffer], when there is one, is allocated. *)
Definition chain_ref_valid (h : Heap) (chainConfig : ChainConfig) : Prop :=
  match chain_gasLimitBuffer (submitter chainConfig) with
  | Some r => valid_ref h r
  | None => True
  end.

(** The scalar merge, field by field. *)
Definition scalars_merged (chainConfig : ChainConfig)
    (globalConfig : GlobalSubmitterConfig) (wd : SubmitterWorkerData) : Prop :=
  let c := submitter chainConfig in
  wd_newOrdersDelay wd = chain_newOrdersDelay c ?? g_newOrdersDelay globalConfig
  ∧ wd_retryInterval wd = chain_retryInterval c ?? g_retryInterval globalConfig
  ∧ wd_processingInterval wd
    = chain_processingInterval c ?? g_processingInterval globalConfig
  ∧ wd_maxTries wd = chain_maxTries c ?? g_maxTries globalConfig
  ∧ wd_maxPendingTransactions wd
    = chain_maxPendingTransactions c ?? g_maxPendingTransactions globalConfig
  ∧ wd_transactionTimeout wd
    = chain_transactionTimeout c ?? g_transactionTimeout globalConfig.

(** The adapter's lookup returns an address for the chain. *)
Definition address_found (chain : string) (amb : AMBConfig) : bool :=
  match getIncentivesAddress amb chain with
  | Normal _ => true
  | Throw _ => false
  end.

(** Every adapter has an incentives address for the chain. *)
Definition lookups_succeed (ambs : list AMBConfig) (chain : string) : bool :=
  forallb (address_found chain) ambs.

(** An entry of the map matches an adapter: keyed by its name, holding
    the address its lookup returned. *)
Definition entry_of (chain : string) (amb : AMBConfig) (e : string * string)
    : Prop :=
  e.1 = name amb ∧ getIncentivesAddress amb chain = Normal e.2.

(** The body of the loop over [chainsConfig]. *)
Definition start_chain (cs : ConfigService) (lo : LoggerOptions)
    (g : GlobalSubmitterConfig) (entry : string * ChainConfig)
    : Eff ServiceState unit :=
  let chainConfig := entry.2 in
  workerData ←ₑ on_heap (loadWorkerConfig cs lo chainConfig g);
  worker ←ₑ new_worker workerData;
  worker_on_error worker {| el_chainId := chainId chainConfig |} ;;ₑ
  worker_on_exit worker {| xl_chainId := chainId chainConfig |} ;;ₑ
  workers_set (chainId chainConfig) worker.

(** The worker object the loop body leaves behind for a chain. *)
Definition started_worker (chain : string) (wd : SubmitterWorkerData) : Worker :=
  {| workerData := wd;
     errorListeners := [{| el_chainId := chain |}];
     exitListeners := [{| xl_chainId := chain |}] |}.

(** The chain a worker was started for. *)
Definition chain_of (wk : Worker) : string := wd_chainId (workerData wk).

(** Every worker object carries exactly the two listeners of its own
    chain. *)
Definition listeners_ok (wk : Worker) : Prop :=
  errorListeners wk = [{| el_chainId := chain_of wk |}]
  ∧ exitListeners wk = [{| xl_chainId := chain_of wk |}].

(** An optional reference is allocated when present. *)
Definition ref_ok (h : Heap) (o : option Ref) : bool :=
  match o with
  | Some r => Nat.ltb r (length h)
  | None => true
  end.

(** Every reference held by the configuration points into the heap. *)
Definition config_refs_ok (h : Heap) (cs : ConfigService) : bool :=
  ref_ok h (raw_gasLimitBuffer (relayer_submitter (relayerConfig cs)))
  && forallb (λ entry, ref_ok h (chain_gasLimitBuffer (submitter entry.2)))
       (chainsConfig cs).

(** The record behind an allocated reference has the key ["default"]. *)
Definition has_default (h : Heap) (r : Ref) : Prop :=
  valid_ref h r ∧ is_Some (deref h r !! "default").

(** A chain configuration whose [submitter] section is [{}]. *)
Definition no_chain_override : ChainSubmitterConfig :=
  {| chain_newOrdersDelay := JUndefined;
     chain_retryInterval := JUndefined;
     chain_processingInterval := JUndefined;
     chain_maxTries := JUndefined;
     chain_maxPendingTransactions := JUndefined;
     chain_transactionTimeout := JUndefined;
     chain_gasLimitBuffer := None;
     chain_maxFeePerGas := JUndefined;
     chain_maxPriorityFeeAdjustmentFactor := JUndefined;
     chain_maxAllowedPriorityFeePerGas := JUndefined;
     chain_gasPriceAdjustmentFactor := JUndefined;
     chain_maxAllowedGasPrice := JUndefined |}.

(** A relayer configuration whose [submitter] section is [{}]. *)
Definition empty_section : RawSubmitterConfig :=
  {| raw_enabled := JUndefined;
     raw_newOrdersDelay := JUndefined;
     raw_retryInterval := JUndefined;
     raw_processingInterval := JUndefined;
     raw_maxTries := JUndefined;
     raw_maxPendingTransactions := JUndefined;
     raw_transactionTimeout := JUndefined;
     raw_gasLimitBuffer := None |}.

(** An adapter deployed on every chain. *)
Definition amb_mock : AMBConfig :=
  {| name := "mock";
     getIncentivesAddress := λ chain, Normal ("0xmock-" +:+ chain) |}.

(** An adapter with no deployment on chain ["sepolia"]. *)
Definition amb_wormhole : AMBConfig :=
  {| name := "wormhole";
     getIncentivesAddress := λ chain,
       if decide (chain = "sepolia")
       then Throw ("No incentives address for chain " +:+ chain)
       else Normal "0xwormhole" |}.

(** A second adapter registered under the name ["mock"]. *)
Definition amb_mock_v2 : AMBConfig :=
  {| name := "mock";
     getIncentivesAddress := λ chain, Normal ("0xmock2-" +:+ chain) |}.

Definition chain_sepolia : ChainConfig :=
  {| chainId := "sepolia"; rpc := "https://rpc.sepolia.example";
     submitter := no_chain_override |}.

Definition chain_mumbai : ChainConfig :=
  {| chainId := "mumbai"; rpc := "https://rpc.mumbai.example";
     submitter := no_chain_override |}.

(** A chain overriding [maxTries] only: [{maxTries: 5}]. *)
Definition chain_base : ChainConfig :=
  {| chainId := "base"; rpc := "https://rpc.base.example";
     submitter :=
       {| chain_newOrdersDelay := JUndefined;
          chain_retryInterval := JUndefined;
          chain_processingInterval := JUndefined;
          chain_maxTries := JNumber 5;
          chain_maxPendingTransactions := JUndefined;
          chain_transactionTimeout := JUndefined;
          chain_gasLimitBuffer := None;
          chain_maxFeePerGas := JUndefined;
          chain_maxPriorityFeeAdjustmentFactor := JUndefined;
          chain_maxAllowedPriorityFeePerGas := JUndefined;
          chain_gasPriceAdjustmentFactor := JUndefined;
          chain_maxAllowedGasPrice := JUndefined |} |}.


(** A configuration service over the given section, chains and
    adapters. *)
Definition example_service (raw : RawSubmitterConfig)
    (chains : list ChainConfig) (ambs : list AMBConfig) : ConfigService :=
  {| relayerConfig := {| privateKey := "0xkey"; relayer_submitter := raw |};
     chainsConfig := (λ c, (chainId c, c)) <$> chains;
     ambsConfig := ambs |}.

(** The global configuration [loadGlobalSubmitterConfig] resolves from
    [{}] on a heap of [n] objects. *)
Definition global_defaults (n : nat) : GlobalSubmitterConfig :=
  {| enabled := JBool true;
     g_newOrdersDelay := JNumber 0;
     g_retryInterval := JNumber 2000;
     g_processingInterval := JNumber 100;
     g_maxTries := JNumber 3;
     g_maxPendingTransactions := JNumber 1000;
     g_transactionTimeout := JNumber 600000;
     g_gasLimitBuffer := n |}.

(** The value a field resolves to: the more specific one when it is
    present, that is neither [undefined] nor [null]. *)
Definition override (chain global : JsValue) : JsValue :=
  if is_nullish chain then global else chain.

Definition example_global_buffer : JsRecord :=
  {[ "default" := JNumber 0; "erc20" := JNumber 5 ]}.
Definition example_chain_buffer : JsRecord :=
  {[ "erc20" := JNumber 10; "nft" := JNumber 3 ]}.

(** A chain-level record with an own key ["__proto__"], as a parser of
    the configuration file can produce. *)
Definition example_proto_buffer : JsRecord :=
  {[ "__proto__" := JNumber 7; "nft" := JNumber 3 ]}.

Definition example_buffered_service : ConfigService :=
  example_service
    {| raw_enabled := JUndefined; raw_newOrdersDelay := JUndefined;
       raw_retryInterval := JUndefined; raw_processingInterval := JUndefined;
       raw_maxTries := JUndefined; raw_maxPendingTransactions := JUndefined;
       raw_transactionTimeout := JUndefined;
       raw_gasLimitBuffer := Some 0%nat |}
    [chain_mumbai; chain_base] [amb_mock].

Definition log_start : LogEntry :=
  {| level := LInfo; log_error := None;
     message := "Starting the submitter on all chains..." |}.

Definition log_disabled : LogEntry :=
  {| level := LInfo; log_error := None;
     message := "Submitter has been disabled. Ending init early" |}.

Definition disabled_section : RawSubmitterConfig :=
  {| raw_enabled := JNumber 0;
     raw_newOrdersDelay := JUndefined;
     raw_retryInterval := JUndefined;
     raw_processingInterval := JUndefined;
     raw_maxTries := JUndefined;
     raw_maxPendingTransactions := JUndefined;
     raw_transactionTimeout := JUndefined;
     raw_gasLimitBuffer := None |}.

(** The global configuration resolved from a section, given the
    reference of its [gasLimitBuffer]. *)
Definition resolve_scalars (raw : RawSubmitterConfig) (buffer : Ref)
    : GlobalSubmitterConfig :=
  {| enabled := override (raw_enabled raw) (JBool true);
     g_newOrdersDelay :=
       override (raw_newOrdersDelay raw) (JNumber NEW_ORDERS_DELAY_DEFAULT);
     g_retryInterval :=
       override (raw_retryInterval raw) (JNumber RETRY_INTERVAL_DEFAULT);
     g_processingInterval :=
       override (raw_processingInterval raw)
         (JNumber PROCESSING_INTERVAL_DEFAULT);
     g_maxTries := override (raw_maxTries raw) (JNumber MAX_TRIES_DEFAULT);
     g_maxPendingTransactions :=
       override (raw_maxPendingTransactions raw)
         (JNumber MAX_PENDING_TRANSACTIONS);
     g_transactionTimeout :=
       override (raw_transactionTimeout raw)
         (JNumber TRANSACTION_TIMEOUT_DEFAULT);
     g_gasLimitBuffer := buffer |}.

(** The objects [loadWorkerConfig] allocates for a chain: the merged
    record, preceded by the [{}] standing in for a missing chain-level
    record. *)
Definition chain_allocs (h : Heap) (chainConfig : ChainConfig)
    (globalConfig : GlobalSubmitterConfig) : list JsRecord :=
  match chain_gasLimitBuffer (submitter chainConfig) with
  | Some r =>
      [transferable (deref h r ∪ deref h (g_gasLimitBuffer globalConfig))]
  | None => [∅; transferable (deref h (g_gasLimitBuffer globalConfig))]
  end.

(** The fields of the worker data that do not go through a merge. *)
Definition carried_through (cs : ConfigService) (lo : LoggerOptions)
    (chainConfig : ChainConfig) (wd : SubmitterWorkerData) : Prop :=
  let c := submitter chainConfig in
  wd_chainId wd = chainId chainConfig
  ∧ wd_rpc wd = rpc chainConfig
  ∧ wd_relayerPrivateKey wd = privateKey (relayerConfig cs)
  ∧ wd_loggerOptions wd = lo
  ∧ wd_maxFeePerGas wd = chain_maxFeePerGas c
  ∧ wd_maxPriorityFeeAdjustmentFactor wd = chain_maxPriorityFeeAdjustmentFactor c
  ∧ wd_maxAllowedPriorityFeePerGas wd = chain_maxAllowedPriorityFeePerGas c
  ∧ wd_gasPriceAdjustmentFactor wd = chain_gasPriceAdjustmentFactor c
  ∧ wd_maxAllowedGasPrice wd = chain_maxAllowedGasPrice c.

(** A worker thread is the one [onModuleInit] starts for a chain entry:
    it carries the listeners of that chain, and its data is the chain's
    configuration resolved against the global configuration [g] as it
    stood on the heap [h1], with its own [gasLimitBuffer] record on the
    heap [hfinal], which reads like the chain-level record laid over the
    global one under every key other than ["__proto__"]. *)
Definition resolved_for (cs : ConfigService) (lo : LoggerOptions)
    (g : GlobalSubmitterConfig) (h1 hfinal : Heap)
    (entry : string * ChainConfig) (wk : Worker) : Prop :=
  wk = started_worker (chainId entry.2) (workerData wk)
  ∧ carried_through cs lo entry.2 (workerData wk)
  ∧ scalars_merged entry.2 g (workerData wk)
  ∧ collect_incentives (ambsConfig cs) (chainId entry.2) []
    = (Normal tt, wd_incentivesAddresses (workerData wk))
  ∧ valid_ref hfinal (wd_gasLimitBuffer (workerData wk))
  ∧ ∀ k, k ≠ "__proto__" →
         deref hfinal (wd_gasLimitBuffer (workerData wk)) !! k
         = (chain_record h1 entry.2 ∪ deref h1 (g_gasLimitBuffer g)) !! k.

(** [w] is the most recent worker thread started for chain [c]. *)
Definition latest_thread (c : string) (w : WorkerRef) (ts : list Worker)
    : Prop :=
  (∃ wk, ts !! w = Some wk ∧ chain_of wk = c)
  ∧ ∀ w' wk', (w < w')%nat → ts !! w' = Some wk' → chain_of wk' ≠ c.

(** The log entry a worker's listeners write for an event. *)
Definition fault_entry (wk : Worker) (ev : WorkerEvent) : LogEntry :=
  match ev with
  | EvError error =>
      {| level := LFatal; log_error := Some error;
         message := "Error on submitter worker (chain "
                    +:+ chain_of wk +:+ ")." |}
  | EvExit exitCode =>
      {| level := LFatal; log_error := None;
         message := "Submitter worker exited with code "
                    +:+ number_to_string exitCode
                    +:+ " (chain " +:+ chain_of wk +:+ ")." |}
  end.

(** Events reaching the service one after the other. *)
Definition deliver (events : list (WorkerRef * WorkerEvent))
    : Eff ServiceState unit :=
  eff_for_each (λ p, emit p.1 p.2) events.

(** A section that only supplies the [gasLimitBuffer] at reference [r]. *)
Definition buffer_only_section (r : Ref) : RawSubmitterConfig :=
  {| raw_enabled := JUndefined; raw_newOrdersDelay := JUndefined;
     raw_retryInterval := JUndefined; raw_processingInterval := JUndefined;
     raw_maxTries := JUndefined; raw_maxPendingTransactions := JUndefined;
     raw_transactionTimeout := JUndefined;
     raw_gasLimitBuffer := Some r |}.

(** A chain with its own [gasLimitBuffer] record at reference [r]. *)
Definition chain_with_buffer (id : string) (r : Ref) : ChainConfig :=
  {| chainId := id; rpc := "https://rpc.example";
     submitter :=
       {| chain_newOrdersDelay := JNull;
          chain_retryInterval := JNumber 0;
          chain_processingInterval := JUndefined;
          chain_maxTries := JUndefined;
          chain_maxPendingTransactions := JUndefined;
          chain_transactionTimeout := JUndefined;
          chain_gasLimitBuffer := Some r;
          chain_maxFeePerGas := JNumber 200;
          chain_maxPriorityFeeAdjustmentFactor := JUndefined;
          chain_maxAllowedPriorityFeePerGas := JUndefined;
          chain_gasPriceAdjustmentFactor := JUndefined;
          chain_maxAllowedGasPrice := JUndefined |} |}.

(** Two chains, one with its own [gasLimitBuffer] record, and two
    adapters that both have an address for each. *)
Definition example_two_chain_service : ConfigService :=
  example_service (buffer_only_section 0)
    [chain_with_buffer "base" 1; chain_mumbai] [amb_mock; amb_wormhole].

(** A configuration in which the chain id ["mumbai"] comes twice. *)
Definition example_repeated_chain_service : ConfigService :=
  example_service empty_section [chain_mumbai; chain_base; chain_mumbai]
    [amb_mock].

(** * Auxiliary lemmas *)

(** ** Heap and record lemmas *)

Lemma deref_app_l (h h' : Heap) (r : Ref) :
  valid_ref h r → deref (h ++ h') r = deref h r.
Proof. unfold valid_ref, deref. intros Hr. by rewrite lookup_app_l. Qed.

Lemma deref_app_fresh (h : Heap) (m : JsRecord) :
  deref (h ++ [m]) (length h) = m.
Proof.
  unfold deref. rewrite lookup_app_r by lia.
  by rewrite Nat.sub_diag.
Qed.

Lemma deref_alter_eq (h : Heap) (r : Ref) (f : JsRecord → JsRecord) :
  valid_ref h r → deref (alter f r h) r = f (deref h r).
Proof.
  unfold valid_ref, deref. intros Hr. rewrite list_lookup_alter_eq.
  destruct (lookup_lt_is_Some_2 h r Hr) as [m ->]. done.
Qed.

Lemma deref_alter_ne (h : Heap) (r r' : Ref) (f : JsRecord → JsRecord) :
  r ≠ r' → deref (alter f r h) r' = deref h r'.
Proof. intros Hne. unfold deref. by rewrite list_lookup_alter_ne. Qed.

Lemma deref_insert_eq (h : Heap) (r : Ref) (m : JsRecord) :
  valid_ref h r → deref (<[r := m]> h) r = m.
Proof. unfold valid_ref, deref. intros Hr. by rewrite list_lookup_insert_eq. Qed.

Lemma deref_insert_ne (h : Heap) (r r' : Ref) (m : JsRecord) :
  r ≠ r' → deref (<[r := m]> h) r' = deref h r'.
Proof. intros Hne. unfold deref. by rewrite list_lookup_insert_ne. Qed.

Lemma insert_deref_id (h : Heap) (r : Ref) : <[r := deref h r]> h = h.
Proof.
  unfold deref. destruct (h !! r) as [m|] eqn:E; simpl.
  - by apply list_insert_id.
  - apply list_insert_ge. by apply lookup_ge_None.
Qed.

Lemma assign_property_other (key : string) (v : JsValue) (obj : JsRecord) :
  key ≠ "__proto__" → assign_property key v obj = <[key := v]> obj.
Proof. intros Hk. unfold assign_property. by rewrite decide_False. Qed.

Lemma assign_property_proto (v : JsValue) (obj : JsRecord) :
  obj !! "__proto__" = None → assign_property "__proto__" v obj = obj.
Proof. intros Hobj. unfold assign_property. simpl. by rewrite Hobj. Qed.

Lemma assign_property_keeps_none (key : string) (v : JsValue) (obj : JsRecord) :
  obj !! "__proto__" = None → assign_property key v obj !! "__proto__" = None.
Proof.
  intros Hobj. unfold assign_property. case_decide as Hk.
  - by rewrite Hobj.
  - by rewrite lookup_insert_ne.
Qed.

Lemma copy_loop_run (src dst : Ref) (ks : list string) (h : Heap) :
  src ≠ dst → valid_ref h dst →
  eff_for_each (λ key, v ←ₑ get_property src key; set_property dst key v) ks h
  = (Normal tt, <[dst := copy_keys (deref h src) ks (deref h dst)]> h).
Proof.
  intros Hne. revert h. induction ks as [|k ks IH]; intros h Hdst; simpl.
  - unfold eff_ret. by rewrite insert_deref_id.
  - unfold eff_bind at 1. unfold eff_bind at 1.
    unfold get_property at 1, set_property at 1, eff_modify.
    rewrite IH by (unfold valid_ref; by rewrite length_alter).
    rewrite deref_alter_ne by done. rewrite deref_alter_eq by done.
    f_equal. unfold valid_ref in Hdst.
    apply list_eq. intros i. destruct (decide (i = dst)) as [->|Hi].
    + rewrite !list_lookup_insert_eq; rewrite ?length_alter; done.
    + rewrite !list_lookup_insert_ne by done.
      by rewrite list_lookup_alter_ne.
Qed.

Lemma copy_keys_lookup (from : JsRecord) (ks : list string) (into : JsRecord)
    (k : string) :
  into !! "__proto__" = None →
  copy_keys from ks into !! k
  = if decide (k ∈ ks ∧ k ≠ "__proto__")
    then Some (default JUndefined (from !! k))
    else into !! k.
Proof.
  revert into. induction ks as [|k' ks IH]; intros into Hinto.
  - rewrite decide_False; [done|]. intros [Hin _].
    by apply not_elem_of_nil in Hin.
  - change (copy_keys from (k' :: ks) into)
      with (copy_keys from ks
              (assign_property k' (default JUndefined (from !! k')) into)).
    rewrite IH by by apply assign_property_keeps_none.
    destruct (decide (k ∈ ks ∧ k ≠ "__proto__")) as [[Hin Hk]|Hnot].
    + rewrite decide_True; [done|]. split; [by right|done].
    + destruct (decide (k = k')) as [->|Hkk'].
      * destruct (decide (k' = "__proto__")) as [->|Hproto].
        -- rewrite assign_property_proto by done.
           rewrite decide_False; [done|]. by intros [_ ?].
        -- rewrite assign_property_other by done.
           rewrite lookup_insert_eq. rewrite decide_True; [done|].
           split; [by left|done].
      * rewrite decide_False.
        -- unfold assign_property. case_decide as Hk'.
           ++ subst k'. destruct (into !! "__proto__"); [|done].
              by rewrite lookup_insert_ne.
           ++ by rewrite lookup_insert_ne.
        -- intros [[?|?]%elem_of_cons ?]; [done|]. by apply Hnot.
Qed.

Lemma copy_own_keys (from into : JsRecord) :
  into !! "__proto__" = None →
  copy_keys from (map_to_list from).*1 into = transferable from ∪ into.
Proof.
  intros Hinto. apply map_eq. intros k.
  rewrite copy_keys_lookup by done. unfold transferable.
  destruct (decide (k = "__proto__")) as [->|Hk].
  - rewrite decide_False by by intros [_ ?].
    rewrite lookup_union_r; [done|]. apply lookup_delete_eq.
  - destruct (from !! k) as [v|] eqn:E.
    + rewrite decide_True.
      * symmetry. apply lookup_union_Some_l. by rewrite lookup_delete_ne.
      * split; [|done]. apply list_elem_of_fmap. exists (k, v).
        split; [done|]. by apply elem_of_map_to_list.
    + rewrite decide_False.
      * symmetry. rewrite lookup_union_r; [done|].
        by rewrite lookup_delete_ne.
      * intros [[[k' v] [-> Hin]]%list_elem_of_fmap _].
        apply elem_of_map_to_list in Hin. simpl in E. congruence.
Qed.

Lemma for_in_copy_run (src dst : Ref) (h : Heap) :
  src ≠ dst → valid_ref h dst → deref h dst !! "__proto__" = None →
  for_in src (λ key, v ←ₑ get_property src key; set_property dst key v) h
  = (Normal tt, <[dst := transferable (deref h src) ∪ deref h dst]> h).
Proof.
  intros Hne Hdst Hnone. unfold for_in, eff_bind at 1, own_keys.
  rewrite copy_loop_run by done. by rewrite copy_own_keys.
Qed.

Lemma transferable_union (m1 m2 : JsRecord) :
  transferable m1 ∪ transferable m2 = transferable (m1 ∪ m2).
Proof.
  apply map_eq. intros k. unfold transferable.
  destruct (decide (k = "__proto__")) as [->|Hk].
  - rewrite lookup_delete_eq. apply lookup_union_None. by rewrite !lookup_delete_eq.
  - rewrite lookup_delete_ne by done.
    rewrite !lookup_union, !lookup_delete_ne by done. done.
Qed.

Lemma transferable_lookup (m : JsRecord) (k : string) :
  k ≠ "__proto__" → transferable m !! k = m !! k.
Proof. intros Hk. unfold transferable. by rewrite lookup_delete_ne. Qed.

Lemma transferable_proto (m : JsRecord) : transferable m !! "__proto__" = None.
Proof. apply lookup_delete_eq. Qed.

(** [getChainGasLimitBufferConfig] allocates one object, holding what the
    two loops carry over of the chain-level record laid over the global
    one, and touches nothing else. *)
Lemma getChainGasLimitBufferConfig_run (d c : Ref) (h : Heap) :
  valid_ref h d → valid_ref h c →
  getChainGasLimitBufferConfig d c h
  = (Normal (length h), h ++ [transferable (deref h c ∪ deref h d)]).
Proof.
  intros Hd Hc. unfold getChainGasLimitBufferConfig.
  unfold eff_bind at 1, new_object.
  assert (Hfresh : valid_ref (h ++ [∅]) (length h)).
  { unfold valid_ref. rewrite length_app. simpl. lia. }
  unfold valid_ref in Hd, Hc.
  unfold eff_bind at 1. rewrite for_in_copy_run; [|lia|done|].
  2:{ by rewrite deref_app_fresh. }
  unfold eff_bind at 1. rewrite for_in_copy_run; [|lia| |].
  2:{ unfold valid_ref. rewrite length_insert. done. }
  2:{ rewrite deref_insert_eq by done. rewrite deref_app_fresh.
      rewrite (right_id_L ∅ (∪)). apply transferable_proto. }
  unfold eff_ret. f_equal.
  rewrite deref_insert_eq by done.
  rewrite deref_insert_ne by lia.
  rewrite list_insert_insert_eq.
  rewrite !deref_app_l by done.
  rewrite deref_app_fresh, (right_id_L ∅ (∪)), transferable_union.
  replace (length h) with (length h + 0)%nat at 1 by lia.
  by rewrite insert_app_r.
Qed.

(** ** Monad lemmas *)

Lemma eff_bind_normal {S A B} (m : Eff S A) (k : A → Eff S B) s a s1 :
  m s = (Normal a, s1) → eff_bind m k s = k a s1.
Proof. intros H. unfold eff_bind. by rewrite H. Qed.

Lemma eff_bind_throw {S A B} (m : Eff S A) (k : A → Eff S B) s e s1 :
  m s = (Throw e, s1) → eff_bind m k s = (Throw e, s1).
Proof. intros H. unfold eff_bind. by rewrite H. Qed.

Lemma eff_bind_inv {S A B} (m : Eff S A) (k : A → Eff S B) s r s' :
  eff_bind m k s = (r, s') →
  (∃ a s1, m s = (Normal a, s1) ∧ k a s1 = (r, s'))
  ∨ (∃ e, m s = (Throw e, s') ∧ r = Throw e).
Proof.
  unfold eff_bind. destruct (m s) as [[a|e] s1]; intros H.
  - left. eauto.
  - right. exists e. by inversion H.
Qed.

Lemma eff_for_each_app {S A} (body : A → Eff S unit) (l1 l2 : list A) s :
  eff_for_each body (l1 ++ l2) s
  = (eff_for_each body l1 ;;ₑ eff_for_each body l2) s.
Proof.
  revert s. induction l1 as [|x l1 IH]; intros s; simpl.
  - done.
  - unfold eff_bind. destruct (body x s) as [[[]|e] s1]; [|done].
    rewrite IH. done.
Qed.

(** A property kept by every run of the loop body is kept by the loop,
    however the loop ends. *)
Lemma eff_for_each_invariant {S A} (P : S → Prop) (body : A → Eff S unit)
    (l : list A) :
  (∀ x s r s', x ∈ l → P s → body x s = (r, s') → P s') →
  ∀ s r s', P s → eff_for_each body l s = (r, s') → P s'.
Proof.
  induction l as [|x l IH]; intros Hstep s r s' HP Hrun; simpl in Hrun.
  - unfold eff_ret in Hrun. by inversion Hrun; subst.
  - apply eff_bind_inv in Hrun as [(a & s1 & Hx & Hrest)|(e & Hx & _)].
    + eapply IH; [| |exact Hrest].
      * intros y t q t' Hy. apply Hstep. by right.
      * eapply Hstep; [left|exact HP|exact Hx].
    + eapply Hstep; [left|exact HP|exact Hx].
Qed.

(** ** [loadGlobalSubmitterConfig] *)

(** Enter [loadGlobalSubmitterConfig] on a section object. *)
Ltac unfold_loadGlobal :=
  unfold loadGlobalSubmitterConfig;
  unfold eff_bind at 1; unfold read_section; unfold eff_ret at 1;
  cbv beta iota.


Lemma ensure_default_has (m : JsRecord) : is_Some (ensure_default m !! "default").
Proof.
  unfold ensure_default. case_bool_decide as H; [done|].
  rewrite lookup_insert_eq. eauto.
Qed.

Lemma default_check_run {A} (r : Ref) (h : Heap) (k : Eff Heap A) :
  valid_ref h r →
  (present ←ₑ has_property r "default";
   (if negb present then set_property r "default" (JNumber 0) else eff_ret tt) ;;ₑ
   k) h
  = k (<[r := ensure_default (deref h r)]> h).
Proof.
  intros Hr. unfold eff_bind, has_property, ensure_default.
  case_bool_decide as H; simpl.
  - by rewrite insert_deref_id.
  - f_equal.
    apply list_eq. intros i. destruct (decide (i = r)) as [->|Hi].
    + rewrite list_lookup_alter_eq, list_lookup_insert_eq by done.
      unfold deref. unfold valid_ref in Hr.
      by destruct (lookup_lt_is_Some_2 h r Hr) as [m ->].
    + by rewrite list_lookup_alter_ne, list_lookup_insert_ne.
Qed.

Lemma loadGlobalSubmitterConfig_given (raw : RawSubmitterConfig) (r : Ref)
    (h : Heap) :
  raw_gasLimitBuffer raw = Some r → valid_ref h r →
  ∃ g, loadGlobalSubmitterConfig raw h
       = (Normal g, <[r := ensure_default (deref h r)]> h)
       ∧ g_gasLimitBuffer g = r.
Proof.
  intros Hraw Hr. unfold_loadGlobal. rewrite Hraw.
  unfold eff_bind at 1, eff_ret at 1.
  rewrite default_check_run by done.
  eexists. split; reflexivity.
Qed.

Lemma loadGlobalSubmitterConfig_absent (raw : RawSubmitterConfig) (h : Heap) :
  raw_gasLimitBuffer raw = None →
  ∃ g, loadGlobalSubmitterConfig raw h
       = (Normal g, h ++ [{[ "default" := JNumber 0 ]}])
       ∧ g_gasLimitBuffer g = length h.
Proof.
  intros Hraw. unfold_loadGlobal. rewrite Hraw.
  unfold eff_bind at 1, new_object at 1.
  assert (Hr : valid_ref (h ++ [∅]) (length h)).
  { unfold valid_ref. rewrite length_app. simpl. lia. }
  rewrite default_check_run by done.
  eexists. split.
  - unfold eff_ret. apply (f_equal2 pair); [reflexivity|].
    rewrite deref_app_fresh.
    replace (length h) with (length h + 0)%nat at 1 by lia.
    rewrite insert_app_r. simpl. f_equal.
  - reflexivity.
Qed.

(** ** [loadWorkerConfig] *)

(** Enter [loadWorkerConfig] on a chain configuration whose sub-section
    is present, and step over the read of that sub-section. *)
Ltac unfold_loadWorker :=
  unfold loadWorkerConfig; cbn [chain_value cv_chainId cv_rpc cv_submitter].

Ltac step_read_submitter :=
  cbv beta iota; unfold eff_bind at 1; unfold read_submitter;
  cbv beta iota; unfold eff_ret at 1; cbv beta iota.

Lemma loadWorkerConfig_throw cs lo (cc : ChainConfig) g (h : Heap) e acc :
  collect_incentives (ambsConfig cs) (chainId cc) [] = (Throw e, acc) →
  loadWorkerConfig cs lo cc g h = (Throw e, h).
Proof.
  intros Hc. unfold collect_incentives in Hc. unfold_loadWorker.
  unfold eff_bind at 1, eff_local at 1. by rewrite Hc.
Qed.

Lemma loadWorkerConfig_normal cs lo (cc : ChainConfig) g (h : Heap) addrs :
  collect_incentives (ambsConfig cs) (chainId cc) [] = (Normal tt, addrs) →
  valid_ref h (g_gasLimitBuffer g) → chain_ref_valid h cc →
  ∃ wd h', loadWorkerConfig cs lo cc g h = (Normal wd, h')
    ∧ h `prefix_of` h'
    ∧ valid_ref h' (wd_gasLimitBuffer wd)
    ∧ deref h' (wd_gasLimitBuffer wd)
      = transferable (chain_record h cc ∪ deref h (g_gasLimitBuffer g))
    ∧ wd_chainId wd = chainId cc
    ∧ wd_incentivesAddresses wd = addrs
    ∧ scalars_merged cc g wd.
Proof.
  intros Hc Hg Hcc. unfold collect_incentives in Hc. unfold_loadWorker.
  unfold eff_bind at 1, eff_local at 1. rewrite Hc. step_read_submitter.
  unfold chain_ref_valid, chain_record in *.
  destruct (chain_gasLimitBuffer (submitter cc)) as [r|].
  - unfold eff_bind at 1, eff_ret at 1.
    unfold eff_bind at 1. rewrite getChainGasLimitBufferConfig_run by done.
    eexists _, _. split; [reflexivity|]. simpl.
    split; [by apply prefix_app_r|].
    split; [unfold valid_ref; rewrite length_app; simpl; lia|].
    split; [by rewrite deref_app_fresh|].
    repeat split; reflexivity.
  - unfold eff_bind at 1, new_object at 1.
    unfold eff_bind at 1.
    rewrite getChainGasLimitBufferConfig_run.
    2:{ unfold valid_ref in *. rewrite length_app. lia. }
    2:{ unfold valid_ref in *. rewrite length_app. simpl. lia. }
    eexists _, _. split; [reflexivity|]. simpl.
    split; [rewrite <- (assoc_L (++)); by apply prefix_app_r|].
    split; [unfold valid_ref; rewrite !length_app; simpl; lia|].
    split.
    { rewrite deref_app_fresh, deref_app_fresh.
      by rewrite deref_app_l. }
    repeat split; reflexivity.
Qed.

(** Whatever the heap, [loadWorkerConfig] either throws what the address
    lookup threw, leaving the heap alone, or returns data for the chain
    it was called for. *)
Lemma getChainGasLimitBufferConfig_returns (d c : Ref) (h : Heap) :
  ∃ r h', getChainGasLimitBufferConfig d c h = (Normal r, h').
Proof.
  assert (Hloop : ∀ (src dst : Ref) ks (h0 : Heap), ∃ h1,
    eff_for_each (λ key, v ←ₑ get_property src key; set_property dst key v)
      ks h0 = (Normal tt, h1)).
  { intros src dst ks. induction ks as [|k ks IH]; intros h0; simpl.
    - by eexists.
    - unfold eff_bind at 1. unfold eff_bind at 1.
      unfold get_property at 1, set_property at 1, eff_modify. apply IH. }
  unfold getChainGasLimitBufferConfig, for_in, own_keys.
  unfold eff_bind at 1, new_object at 1.
  unfold eff_bind at 1. unfold eff_bind at 1.
  destruct (Hloop d (length h) (map_to_list (deref (h ++ [∅]) d)).*1 (h ++ [∅]))
    as [h1 ->].
  unfold eff_bind at 1. unfold eff_bind at 1.
  destruct (Hloop c (length h) (map_to_list (deref h1 c)).*1 h1) as [h2 ->].
  by eexists _, _.
Qed.

Lemma loadWorkerConfig_cases cs lo (cc : ChainConfig) g (h : Heap) r h' :
  loadWorkerConfig cs lo cc g h = (r, h') →
  match r with
  | Normal wd =>
      wd_chainId wd = chainId cc ∧ scalars_merged cc g wd
      ∧ collect_incentives (ambsConfig cs) (chainId cc) []
        = (Normal tt, wd_incentivesAddresses wd)
  | Throw e =>
      h' = h
      ∧ ∃ acc, collect_incentives (ambsConfig cs) (chainId cc) []
               = (Throw e, acc)
  end.
Proof.
  unfold_loadWorker.
  destruct (collect_incentives (ambsConfig cs) (chainId cc) [])
    as [[[]|e] acc] eqn:Hc; unfold collect_incentives in Hc;
    unfold eff_bind at 1, eff_local at 1; rewrite Hc.
  - step_read_submitter.
    destruct (chain_gasLimitBuffer (submitter cc)) as [rc|].
    + unfold eff_bind at 1, eff_ret at 1. unfold eff_bind at 1.
      destruct (getChainGasLimitBufferConfig_returns (g_gasLimitBuffer g) rc h)
        as (r1 & h1 & ->).
      unfold eff_ret. intros [= <- <-]. repeat split; reflexivity.
    + unfold eff_bind at 1, new_object at 1. unfold eff_bind at 1.
      destruct (getChainGasLimitBufferConfig_returns (g_gasLimitBuffer g)
                  (length h) (h ++ [∅])) as (r1 & h1 & ->).
      unfold eff_ret. intros [= <- <-]. repeat split; reflexivity.
  - intros [= <- <-]. split; [done|]. by exists acc.
Qed.

(** ** [Map] lemmas *)

Section js_map.
Context {V : Type}.
Implicit Types (m : JsMap V) (k : string) (v : V).

Lemma js_map_get_set_eq k v m : js_map_get k (js_map_set k v m) = Some v.
Proof.
  induction m as [|[k' v'] m IH]; simpl.
  - by rewrite decide_True.
  - destruct (decide (k = k')) as [->|Hne]; simpl.
    + by rewrite decide_True.
    + by rewrite decide_False.
Qed.

Lemma js_map_get_set_ne k k' v m :
  k ≠ k' → js_map_get k' (js_map_set k v m) = js_map_get k' m.
Proof.
  intros Hne. induction m as [|[k0 v0] m IH]; simpl.
  - by rewrite decide_False.
  - destruct (decide (k = k0)) as [->|Hk]; simpl.
    + by rewrite !decide_False.
    + destruct (decide (k' = k0)); [done|apply IH].
Qed.

Lemma js_map_set_fresh k v m : k ∉ m.*1 → js_map_set k v m = m ++ [(k, v)].
Proof.
  induction m as [|[k' v'] m IH]; simpl; intros Hk; [done|].
  apply not_elem_of_cons in Hk as [Hne Hk].
  rewrite decide_False by done. by rewrite IH.
Qed.

Lemma js_map_set_size k v m :
  (js_map_size m ≤ js_map_size (js_map_set k v m) ≤ S (js_map_size m))%nat.
Proof.
  unfold js_map_size. induction m as [|[k' v'] m IH]; simpl; [lia|].
  destruct (decide (k = k')); simpl; lia.
Qed.
End js_map.

(** ** The adapter loop *)

Lemma collect_incentives_cons amb ambs chain acc :
  collect_incentives (amb :: ambs) chain acc
  = match getIncentivesAddress amb chain with
    | Normal address =>
        collect_incentives ambs chain (js_map_set (name amb) address acc)
    | Throw e => (Throw e, acc)
    end.
Proof.
  unfold collect_incentives. simpl. unfold eff_bind at 1. unfold eff_bind at 1.
  unfold eff_call at 1. by destruct (getIncentivesAddress amb chain).
Qed.

Lemma collect_incentives_succeeds ambs chain acc :
  lookups_succeed ambs chain = true →
  ∃ m, collect_incentives ambs chain acc = (Normal tt, m).
Proof.
  revert acc. induction ambs as [|amb ambs IH]; intros acc; simpl.
  - by eexists.
  - intros [Ha Hrest]%andb_prop. rewrite collect_incentives_cons.
    unfold address_found in Ha.
    destruct (getIncentivesAddress amb chain); [by apply IH | done].
Qed.

Lemma collect_incentives_fails ambs chain acc :
  lookups_succeed ambs chain = false →
  ∃ e m, collect_incentives ambs chain acc = (Throw e, m).
Proof.
  revert acc. induction ambs as [|amb ambs IH]; intros acc; simpl; [done|].
  rewrite collect_incentives_cons. unfold address_found.
  destruct (getIncentivesAddress amb chain); simpl; [by apply IH|].
  by eexists _, _.
Qed.

Lemma collect_incentives_distinct ambs chain acc m :
  NoDup (name <$> ambs) →
  (∀ amb, amb ∈ ambs → name amb ∉ acc.*1) →
  collect_incentives ambs chain acc = (Normal tt, m) →
  ∃ entries, m = acc ++ entries ∧ Forall2 (entry_of chain) ambs entries.
Proof.
  revert acc. induction ambs as [|amb ambs IH]; intros acc Hnd Hfresh Hrun.
  - unfold collect_incentives in Hrun. simpl in Hrun.
    injection Hrun as <-. exists []. split; [by rewrite app_nil_r|constructor].
  - rewrite collect_incentives_cons in Hrun.
    destruct (getIncentivesAddress amb chain) as [address|e] eqn:Ha; [|done].
    rewrite fmap_cons in Hnd. apply NoDup_cons in Hnd as [Hhd Hnd].
    rewrite js_map_set_fresh in Hrun by (apply Hfresh; left).
    apply IH in Hrun as (entries & -> & Hall); [|done|].
    + exists ((name amb, address) :: entries). split.
      * by rewrite <- (assoc_L (++)).
      * constructor; [by split|done].
    + intros a Ha'. rewrite fmap_app. simpl.
      intros [Hin|Hin]%elem_of_app.
      * revert Hin. apply Hfresh. by right.
      * apply list_elem_of_singleton in Hin. apply Hhd.
        rewrite <- Hin. apply list_elem_of_fmap. eauto.
Qed.

Lemma collect_incentives_size ambs chain acc m :
  collect_incentives ambs chain acc = (Normal tt, m) →
  (js_map_size acc ≤ js_map_size m ≤ js_map_size acc + length ambs)%nat.
Proof.
  revert acc. induction ambs as [|amb ambs IH]; intros acc Hrun.
  - unfold collect_incentives in Hrun. simpl in Hrun.
    injection Hrun as <-. lia.
  - rewrite collect_incentives_cons in Hrun.
    destruct (getIncentivesAddress amb chain) as [address|e]; [|done].
    apply IH in Hrun.
    pose proof (js_map_set_size (name amb) address acc). simpl. lia.
Qed.

Lemma collect_incentives_untouched ambs chain acc m k :
  collect_incentives ambs chain acc = (Normal tt, m) →
  k ∉ name <$> ambs →
  js_map_get k m = js_map_get k acc.
Proof.
  revert acc. induction ambs as [|amb ambs IH]; intros acc Hrun Hk.
  - unfold collect_incentives in Hrun. simpl in Hrun. by injection Hrun as <-.
  - rewrite collect_incentives_cons in Hrun.
    destruct (getIncentivesAddress amb chain) as [address|e]; [|done].
    rewrite fmap_cons in Hk. apply not_elem_of_cons in Hk as [Hne Hk].
    rewrite (IH _ Hrun Hk). by apply js_map_get_set_ne.
Qed.

(** Last write wins: the entry for a name holds the address of the last
    adapter registered under it. *)
Lemma collect_incentives_last pre amb post chain acc m :
  collect_incentives (pre ++ amb :: post) chain acc = (Normal tt, m) →
  name amb ∉ name <$> post →
  ∃ address, getIncentivesAddress amb chain = Normal address
             ∧ js_map_get (name amb) m = Some address.
Proof.
  revert acc. induction pre as [|a pre IH]; intros acc Hrun Hlast; simpl in Hrun.
  - rewrite collect_incentives_cons in Hrun.
    destruct (getIncentivesAddress amb chain) as [address|e]; [|done].
    exists address. split; [done|].
    rewrite (collect_incentives_untouched _ _ _ _ _ Hrun Hlast).
    apply js_map_get_set_eq.
  - rewrite collect_incentives_cons in Hrun.
    destruct (getIncentivesAddress a chain) as [address|e]; [|done].
    by eapply IH.
Qed.

(** ** The initialisation loop *)

Lemma alter_last {A} (f : A → A) (l : list A) (x : A) :
  alter f (length l) (l ++ [x]) = l ++ [f x].
Proof.
  replace (length l) with (length l + 0)%nat by lia.
  by rewrite alter_app_r.
Qed.

Lemma start_chain_normal cs lo g (entry : string * ChainConfig) s wd h' :
  loadWorkerConfig cs lo entry.2 g (heap s) = (Normal wd, h') →
  start_chain cs lo g entry s
  = (Normal tt,
     {| heap := h';
        threads := threads s ++ [started_worker (chainId entry.2) wd];
        workers := js_map_set (chainId entry.2) (length (threads s)) (workers s);
        logs := logs s |}).
Proof.
  intros Hload. unfold start_chain.
  unfold eff_bind at 1, on_heap, eff_zoom. rewrite Hload.
  unfold eff_bind at 1, new_worker at 1. simpl.
  unfold eff_bind at 1, worker_on_error at 1, eff_modify at 1. simpl.
  unfold eff_bind at 1, worker_on_exit at 1, eff_modify at 1. simpl.
  unfold workers_set, eff_modify, with_workers, with_threads. simpl.
  by rewrite !alter_last.
Qed.

Lemma start_chain_throw cs lo g (entry : string * ChainConfig) s e h' :
  loadWorkerConfig cs lo entry.2 g (heap s) = (Throw e, h') →
  start_chain cs lo g entry s = (Throw e, with_heap h' s).
Proof.
  intros Hload. unfold start_chain.
  unfold eff_bind at 1, on_heap, eff_zoom. by rewrite Hload.
Qed.

Lemma with_heap_same s : with_heap (heap s) s = s.
Proof. by destruct s. Qed.

(** [onModuleInit], split at the kill switch. *)
Lemma onModuleInit_unfold cs lo h g h1 :
  loadGlobalSubmitterConfig (relayer_submitter (relayerConfig cs)) h
  = (Normal g, h1) →
  let start :=
    {| level := LInfo; log_error := None;
       message := "Starting the submitter on all chains..." |} in
  onModuleInit cs lo (initial_state h)
  = if to_boolean (enabled g)
    then eff_for_each (start_chain cs lo g) (chainsConfig cs)
           {| heap := h1; threads := []; workers := []; logs := [start] |}
    else (Normal tt,
          {| heap := h1; threads := []; workers := [];
             logs := [start;
                      {| level := LInfo; log_error := None;
                         message :=
                           "Submitter has been disabled. Ending init early" |}]
          |}).
Proof.
  intros Hg start. unfold onModuleInit.
  unfold eff_bind at 1, logger_info at 1, eff_modify at 1.
  unfold eff_bind at 1, on_heap, eff_zoom. simpl. rewrite Hg.
  destruct (to_boolean (enabled g)); simpl; reflexivity.
Qed.

Lemma loadGlobalSubmitterConfig_returns (raw : RawSubmitterConfig) (h : Heap) :
  ∃ g h1, loadGlobalSubmitterConfig raw h = (Normal g, h1)
    ∧ enabled g = raw_enabled raw ?? JBool true.
Proof.
  unfold_loadGlobal.
  destruct (raw_gasLimitBuffer raw) as [r|];
    unfold eff_bind, eff_ret, new_object, has_property;
    match goal with |- context [negb ?b] => destruct b end; simpl;
    by eexists _, _.
Qed.

(** Chains whose adapters all answer get their worker, in order. *)
Lemma start_chains_succeed cs lo g (chains : list (string * ChainConfig)) s :
  forallb (λ entry, lookups_succeed (ambsConfig cs) (chainId entry.2)) chains
  = true →
  ∃ s', eff_for_each (start_chain cs lo g) chains s = (Normal tt, s')
    ∧ chain_of <$> threads s'
      = (chain_of <$> threads s) ++ ((λ entry, chainId entry.2) <$> chains)
    ∧ logs s' = logs s
    ∧ ∀ c, is_Some (js_map_get c (workers s'))
           ↔ is_Some (js_map_get c (workers s))
             ∨ c ∈ (λ entry, chainId entry.2) <$> chains.
Proof.
  revert s. induction chains as [|entry chains IH]; intros s Hok; simpl in *.
  - exists s. split; [done|]. rewrite app_nil_r. split; [done|].
    split; [done|]. intros c. split; [by left|].
    intros [?|Hin]; [done|]. by apply not_elem_of_nil in Hin.
  - apply andb_prop in Hok as [Hentry Hrest].
    destruct (loadWorkerConfig cs lo entry.2 g (heap s)) as [[wd|e] h'] eqn:Hload.
    + pose proof (loadWorkerConfig_cases _ _ _ _ _ _ _ Hload) as (Hid & _ & _).
      rewrite (eff_bind_normal _ _ _ _ _ (start_chain_normal _ _ _ _ _ _ _ Hload)).
      match goal with |- context [eff_for_each _ chains ?s1] =>
        destruct (IH s1 Hrest) as (s' & -> & Hthreads & Hlogs & Hworkers)
      end.
      exists s'. split; [done|]. simpl in *.
      split.
      { rewrite Hthreads, fmap_app. simpl. unfold chain_of at 2. simpl.
        rewrite Hid. by rewrite <- (assoc_L (++)). }
      split; [done|].
      intros c. rewrite Hworkers. rewrite elem_of_cons.
      destruct (decide (chainId entry.2 = c)) as [<-|Hne].
      * rewrite js_map_get_set_eq.
        split; [intros _; right; by left | intros _; left; by eexists].
      * rewrite js_map_get_set_ne by done.
        split; [tauto | intros [?|[?|?]]; [tauto|congruence|tauto]].
    + apply loadWorkerConfig_cases in Hload as (_ & acc & Hthrow).
      destruct (collect_incentives_succeeds _ _ [] Hentry) as (m & Hm).
      congruence.
Qed.

Lemma start_chain_cases cs lo g (entry : string * ChainConfig) s r s' :
  start_chain cs lo g entry s = (r, s') →
  (∃ wd h', loadWorkerConfig cs lo entry.2 g (heap s) = (Normal wd, h')
     ∧ r = Normal tt
     ∧ s' = {| heap := h';
               threads := threads s ++ [started_worker (chainId entry.2) wd];
               workers := js_map_set (chainId entry.2) (length (threads s))
                            (workers s);
               logs := logs s |})
  ∨ (∃ e, loadWorkerConfig cs lo entry.2 g (heap s) = (Throw e, heap s)
     ∧ r = Throw e ∧ s' = s).
Proof.
  destruct (loadWorkerConfig cs lo entry.2 g (heap s)) as [[wd|e] h'] eqn:Hload.
  - rewrite (start_chain_normal _ _ _ _ _ _ _ Hload). intros [= <- <-].
    left. by eexists _, _.
  - rewrite (start_chain_throw _ _ _ _ _ _ _ Hload). intros [= <- <-].
    pose proof (loadWorkerConfig_cases _ _ _ _ _ _ _ Hload) as [-> _].
    right. exists e. by rewrite with_heap_same.
Qed.

Lemma start_chains_listeners cs lo g chains s r s' :
  Forall listeners_ok (threads s) →
  eff_for_each (start_chain cs lo g) chains s = (r, s') →
  Forall listeners_ok (threads s').
Proof.
  apply (eff_for_each_invariant (λ s, Forall listeners_ok (threads s))).
  clear. intros entry s r s' _ Hinv Hstep.
  apply start_chain_cases in Hstep
    as [(wd & h' & Hload & -> & ->)|(e & _ & -> & ->)]; [|done].
  simpl. apply Forall_app. split; [done|].
  apply Forall_singleton.
  apply loadWorkerConfig_cases in Hload as (Hid & _).
  unfold listeners_ok, chain_of. simpl. by rewrite Hid.
Qed.

Lemma onModuleInit_listeners cs lo h r s' :
  onModuleInit cs lo (initial_state h) = (r, s') →
  Forall listeners_ok (threads s').
Proof.
  destruct (loadGlobalSubmitterConfig_returns
              (relayer_submitter (relayerConfig cs)) h) as (g & h1 & Hg & _).
  rewrite (onModuleInit_unfold _ _ _ _ _ Hg).
  destruct (to_boolean (enabled g)).
  - apply start_chains_listeners. simpl. constructor.
  - intros [= <- <-]. simpl. constructor.
Qed.

(** ** Heaps only grow during initialisation *)

Lemma deref_prefix (h h' : Heap) (r : Ref) :
  h `prefix_of` h' → valid_ref h r → deref h' r = deref h r.
Proof. intros [k ->] Hr. by apply deref_app_l. Qed.

Lemma valid_ref_prefix (h h' : Heap) (r : Ref) :
  h `prefix_of` h' → valid_ref h r → valid_ref h' r.
Proof.
  intros [k ->]. unfold valid_ref. rewrite length_app. lia.
Qed.

Lemma ref_ok_valid (h : Heap) (r : Ref) : ref_ok h (Some r) = true → valid_ref h r.
Proof. simpl. intros H. by apply Nat.ltb_lt. Qed.

Lemma ref_ok_mono (h h' : Heap) (o : option Ref) :
  (length h ≤ length h')%nat → ref_ok h o = true → ref_ok h' o = true.
Proof.
  destruct o as [r|]; simpl; [|done].
  rewrite !Nat.ltb_lt. lia.
Qed.

Lemma ref_ok_chain (h : Heap) (cc : ChainConfig) :
  ref_ok h (chain_gasLimitBuffer (submitter cc)) = true → chain_ref_valid h cc.
Proof.
  unfold chain_ref_valid. destruct (chain_gasLimitBuffer (submitter cc)); [|done].
  apply ref_ok_valid.
Qed.

Lemma loadGlobalSubmitterConfig_default (raw : RawSubmitterConfig) (h : Heap) :
  ref_ok h (raw_gasLimitBuffer raw) = true →
  ∃ g h1, loadGlobalSubmitterConfig raw h = (Normal g, h1)
    ∧ (length h ≤ length h1)%nat
    ∧ has_default h1 (g_gasLimitBuffer g).
Proof.
  intros Hok. destruct (raw_gasLimitBuffer raw) as [r|] eqn:Hraw.
  - apply ref_ok_valid in Hok.
    destruct (loadGlobalSubmitterConfig_given raw r h Hraw Hok) as (g & Hg & Hr).
    eexists _, _. split; [exact Hg|]. rewrite Hr.
    rewrite length_insert. split; [done|]. split.
    + unfold valid_ref. by rewrite length_insert.
    + rewrite deref_insert_eq by done. apply ensure_default_has.
  - destruct (loadGlobalSubmitterConfig_absent raw h Hraw) as (g & Hg & Hr).
    eexists _, _. split; [exact Hg|]. rewrite Hr.
    rewrite length_app. simpl. split; [lia|]. split.
    + unfold valid_ref. rewrite length_app. simpl. lia.
    + rewrite deref_app_fresh, lookup_singleton_eq. by eexists.
Qed.

Lemma start_chains_default cs lo g chains h1 s r s' :
  has_default h1 (g_gasLimitBuffer g) →
  forallb (λ entry, ref_ok h1 (chain_gasLimitBuffer (submitter entry.2))) chains
  = true →
  h1 `prefix_of` heap s →
  Forall (λ wk, has_default (heap s) (wd_gasLimitBuffer (workerData wk)))
    (threads s) →
  eff_for_each (start_chain cs lo g) chains s = (r, s') →
  Forall (λ wk, has_default (heap s') (wd_gasLimitBuffer (workerData wk)))
    (threads s').
Proof.
  intros [Hg Hdef] Hchains Hpre Hthreads Hrun.
  cut (h1 `prefix_of` heap s'
       ∧ Forall (λ wk,
           has_default (heap s') (wd_gasLimitBuffer (workerData wk)))
           (threads s')); [tauto|].
  revert Hrun.
  apply (eff_for_each_invariant (λ s, h1 `prefix_of` heap s
    ∧ Forall (λ wk, has_default (heap s) (wd_gasLimitBuffer (workerData wk)))
        (threads s))); [|done].
  clear s r s' Hpre Hthreads. intros entry s r s' Hin [Hpre Hthreads] Hstep.
  apply start_chain_cases in Hstep
    as [(wd & h' & Hload & -> & ->)|(e & _ & -> & ->)]; [|done].
  simpl.
  pose proof (loadWorkerConfig_cases _ _ _ _ _ _ _ Hload) as (_ & _ & Hc).
  rewrite forallb_forall in Hchains.
  assert (Hcc : chain_ref_valid (heap s) entry.2).
  { apply ref_ok_chain. eapply ref_ok_mono; [by apply prefix_length|].
    apply Hchains. by apply list_elem_of_In. }
  destruct (loadWorkerConfig_normal cs lo entry.2 g (heap s) _ Hc)
    as (wd' & h'' & Hload' & Hgrow & Hvalid & Hrec & _); [|done|].
  { by eapply valid_ref_prefix. }
  rewrite Hload in Hload'. injection Hload' as <- <-.
  split; [by etrans|].
  apply Forall_app. split.
  - eapply Forall_impl; [exact Hthreads|]. intros wk [Hv Hd]. split.
    + by eapply valid_ref_prefix.
    + by rewrite (deref_prefix _ _ _ Hgrow Hv).
  - apply Forall_singleton. split; [done|]. simpl. rewrite Hrec.
    rewrite transferable_lookup by done.
    rewrite (deref_prefix _ _ _ Hpre Hg).
    destruct Hdef as [v Hv].
    destruct (chain_record (heap s) entry.2 !! "default") as [v'|] eqn:E.
    + exists v'. by apply lookup_union_Some_l.
    + exists v. by rewrite lookup_union_r.
Qed.

(** * Main results *)

(** ** Scalar merge *)




(** ** The [gasLimitBuffer] merge *)

(** C2 fails as stated: a key ["__proto__"] of the chain-level record is
    not carried into the resolved record, while the other keys are. *)
Lemma getChainGasLimitBufferConfig_skips_proto :
  ∃ r h',
    getChainGasLimitBufferConfig 0%nat 1%nat
      [example_global_buffer; example_proto_buffer] = (Normal r, h')
    ∧ example_proto_buffer !! "__proto__" = Some (JNumber 7)
    ∧ deref h' r !! "__proto__" = None
    ∧ deref h' r !! "nft" = Some (JNumber 3)
    ∧ deref h' r !! "erc20" = Some (JNumber 5).
Proof.
  eexists _, _. split; [vm_compute; reflexivity|].
  repeat split; vm_compute; reflexivity.
Qed.

(** C2, for the keys other than ["__proto__"]. The resolved
    [gasLimitBuffer] maps each such key to the chain-level value when the
    chain-level record has the key and to the global value otherwise, and
    has such a key exactly when one of the two records has it; the two
    input records are left as they were. Merging the chain-level record
    into the result again changes none of these keys, and
    [{default:0, erc20:5}] merged with [{erc20:10, nft:3}] is
    [{default:0, erc20:10, nft:3}]. *)
Theorem getChainGasLimitBufferConfig_merge (d c : Ref) (h : Heap) :
  valid_ref h d → valid_ref h c →
  ∃ r h', getChainGasLimitBufferConfig d c h = (Normal r, h')
    ∧ (∀ k, k ≠ "__proto__" →
            deref h' r !! k
            = match deref h c !! k with
              | Some v => Some v
              | None => deref h d !! k
              end)
    ∧ (∀ k, k ≠ "__proto__" →
            (is_Some (deref h' r !! k)
             ↔ is_Some (deref h d !! k) ∨ is_Some (deref h c !! k)))
    ∧ deref h' d = deref h d
    ∧ deref h' c = deref h c
    ∧ (∃ r2 h2, getChainGasLimitBufferConfig r c h' = (Normal r2, h2)
         ∧ ∀ k, k ≠ "__proto__" → deref h2 r2 !! k = deref h' r !! k)
    ∧ deref (getChainGasLimitBufferConfig 0%nat 1%nat
               [example_global_buffer; example_chain_buffer]).2 2%nat
      = {[ "default" := JNumber 0; "erc20" := JNumber 10; "nft" := JNumber 3 ]}.
Proof.
  intros Hd Hc. eexists _, _.
  split; [by apply getChainGasLimitBufferConfig_run|].
  rewrite deref_app_fresh, !deref_app_l by done.
  assert (Hlookup : ∀ k, k ≠ "__proto__" →
    transferable (deref h c ∪ deref h d) !! k
    = match deref h c !! k with
      | Some v => Some v
      | None => deref h d !! k
      end).
  { intros k Hk. rewrite transferable_lookup by done.
    destruct (deref h c !! k) as [v|] eqn:E.
    - by apply lookup_union_Some_l.
    - by rewrite lookup_union_r. }
  split; [exact Hlookup|].
  split.
  { intros k Hk. rewrite Hlookup by done.
    destruct (deref h c !! k) as [v|].
    - split; [intros _; right|intros _]; by eexists.
    - split; [by left|]. intros [?|[? ?]]; done. }
  do 2 (split; [done|]).
  split.
  - eexists _, _. split.
    + apply getChainGasLimitBufferConfig_run.
      * unfold valid_ref. rewrite length_app. simpl. lia.
      * by eapply valid_ref_prefix; [apply prefix_app_r|].
    + intros k Hk.
      rewrite deref_app_fresh, deref_app_l by done.
      rewrite deref_app_fresh.
      rewrite !transferable_lookup by done.
      rewrite lookup_union, transferable_lookup, lookup_union by done.
      destruct (deref h c !! k), (deref h d !! k); done.
  - vm_compute. reflexivity.
Qed.

Lemma getChainGasLimitBufferConfig_merge_witness :
  ∃ r h', getChainGasLimitBufferConfig 0%nat 1%nat
            [example_global_buffer; example_chain_buffer] = (Normal r, h')
    ∧ deref h' r !! "erc20" = Some (JNumber 10)
    ∧ deref h' r !! "default" = Some (JNumber 0)
    ∧ deref h' r !! "nft" = Some (JNumber 3)
    ∧ deref h' r !! "other" = None.
Proof.
  destruct (getChainGasLimitBufferConfig_merge 0%nat 1%nat
              [example_global_buffer; example_chain_buffer])
    as (r & h' & Hrun & Hlookup & _).
  - unfold valid_ref. simpl. lia.
  - unfold valid_ref. simpl. lia.
  - exists r, h'. split; [exact Hrun|].
    rewrite !Hlookup by discriminate. repeat split; vm_compute; reflexivity.
Defined.

(** ** Resolution of the global configuration *)

(** C4 fails as stated: with no submitter section at all in the relayer
    configuration the first property read throws, and nothing is
    resolved. *)
Lemma loadGlobalSubmitterConfig_absent_section_throws :
  loadGlobalSubmitterConfig SectionUndefined []
  = (Throw "TypeError: Cannot read properties of undefined (reading 'enabled')",
     []).
Proof. vm_compute. reflexivity. Qed.

(** C4, for a submitter section that is present. On every section
    object, partial or empty, and every heap, [loadGlobalSubmitterConfig]
    returns normally; each scalar that is missing takes its default
    ([enabled] true, [newOrdersDelay] 0, [retryInterval] 2000,
    [processingInterval] 100, [maxTries] 3, [maxPendingTransactions] 1000,
    [transactionTimeout] 600000) and each scalar that is given is kept.
    On the section [{}] the result is the defaults with a fresh
    [{default: 0}]. Without a section it throws a [TypeError] and leaves
    the heap as it was. *)
Theorem loadGlobalSubmitterConfig_defaults (raw : RawSubmitterConfig)
    (h : Heap) :
  (∃ g h', loadGlobalSubmitterConfig raw h = (Normal g, h')
     ∧ enabled g = override (raw_enabled raw) (JBool true)
     ∧ g_newOrdersDelay g = override (raw_newOrdersDelay raw) (JNumber 0)
     ∧ g_retryInterval g = override (raw_retryInterval raw) (JNumber 2000)
     ∧ g_processingInterval g
       = override (raw_processingInterval raw) (JNumber 100)
     ∧ g_maxTries g = override (raw_maxTries raw) (JNumber 3)
     ∧ g_maxPendingTransactions g
       = override (raw_maxPendingTransactions raw) (JNumber 1000)
     ∧ g_transactionTimeout g
       = override (raw_transactionTimeout raw) (JNumber 600000))
  ∧ loadGlobalSubmitterConfig empty_section h
    = (Normal (global_defaults (length h)), h ++ [{[ "default" := JNumber 0 ]}])
  ∧ loadGlobalSubmitterConfig SectionUndefined h
    = (Throw (TypeError_undefined "enabled"), h).
Proof.
  split; [|split].
  - unfold_loadGlobal.
    destruct (raw_gasLimitBuffer raw) as [r|];
      unfold eff_bind, eff_ret, new_object, has_property;
      match goal with |- context [negb ?b] => destruct b end; simpl;
      eexists _, _; (split; [reflexivity|]); repeat split; reflexivity.
  - destruct (loadGlobalSubmitterConfig_absent empty_section h eq_refl)
      as (g & Hg & Href).
    rewrite Hg. f_equal. f_equal.
    revert Hg. unfold_loadGlobal. simpl.
    unfold eff_bind, eff_ret, new_object, has_property.
    match goal with |- context [negb ?b] => destruct b end; simpl;
      by intros [= <- _].
  - reflexivity.
Qed.

(** C9. When the section supplies a [gasLimitBuffer] record without a
    ["default"] key, [loadGlobalSubmitterConfig] returns the reference it
    was given, allocates nothing, and the record behind that reference now
    holds [default = 0] on top of its former content: the caller's record
    has changed, and no other object has. *)
Theorem loadGlobalSubmitterConfig_mutates_input (raw : RawSubmitterConfig)
    (r : Ref) (m : JsRecord) (h : Heap) :
  raw_gasLimitBuffer raw = Some r →
  h !! r = Some m →
  m !! "default" = None →
  ∃ g h', loadGlobalSubmitterConfig raw h = (Normal g, h')
    ∧ g_gasLimitBuffer g = r
    ∧ length h' = length h
    ∧ h' !! r = Some (<["default" := JNumber 0]> m)
    ∧ h' !! r ≠ h !! r
    ∧ ∀ r', r' ≠ r → h' !! r' = h !! r'.
Proof.
  intros Hraw Hm Hnone.
  assert (Hr : valid_ref h r) by (by eapply lookup_lt_Some).
  destruct (loadGlobalSubmitterConfig_given raw r h Hraw Hr) as (g & Hg & Href).
  exists g, (<[r := ensure_default (deref h r)]> h).
  split; [done|]. split; [done|]. split; [by rewrite length_insert|].
  assert (Hnew : ensure_default (deref h r) = <["default" := JNumber 0]> m).
  { unfold deref. rewrite Hm. simpl. unfold ensure_default.
    rewrite bool_decide_eq_false_2; [done|].
    rewrite Hnone. by intros [? ?]. }
  rewrite Hnew. split; [by apply list_lookup_insert_eq|]. split.
  - rewrite list_lookup_insert_eq by done. rewrite Hm. intros [= Heq].
    assert (Hl : (<["default" := JNumber 0]> m) !! "default" = m !! "default")
      by (by rewrite Heq).
    rewrite lookup_insert_eq, Hnone in Hl. done.
  - intros r' Hne. by apply list_lookup_insert_ne.
Qed.

Lemma loadGlobalSubmitterConfig_mutates_input_witness :
  ∃ g h', loadGlobalSubmitterConfig
            {| raw_enabled := JUndefined; raw_newOrdersDelay := JUndefined;
               raw_retryInterval := JUndefined;
               raw_processingInterval := JUndefined;
               raw_maxTries := JUndefined;
               raw_maxPendingTransactions := JUndefined;
               raw_transactionTimeout := JUndefined;
               raw_gasLimitBuffer := Some 0%nat |}
            [{[ "erc20" := JNumber 5 ]}] = (Normal g, h')
    ∧ g_gasLimitBuffer g = 0%nat
    ∧ h' !! 0%nat = Some (<["default" := JNumber 0]> {[ "erc20" := JNumber 5 ]}).
Proof.
  destruct (loadGlobalSubmitterConfig_mutates_input
              {| raw_enabled := JUndefined; raw_newOrdersDelay := JUndefined;
                 raw_retryInterval := JUndefined;
                 raw_processingInterval := JUndefined;
                 raw_maxTries := JUndefined;
                 raw_maxPendingTransactions := JUndefined;
                 raw_transactionTimeout := JUndefined;
                 raw_gasLimitBuffer := Some 0%nat |}
              0%nat {[ "erc20" := JNumber 5 ]} [{[ "erc20" := JNumber 5 ]}])
    as (g & h' & Hrun & Href & _ & Hnew & _).
  - reflexivity.
  - reflexivity.
  - vm_compute. reflexivity.
  - exists g, h'. split; [exact Hrun|]. split; [exact Href | exact Hnew].
Defined.

(** C6. After [loadGlobalSubmitterConfig] the global [gasLimitBuffer]
    record has the key ["default"]: a record given without it gains
    [default = 0] and keeps its other entries, a record given with it is
    kept as it is, and with no record given the result is exactly
    [{default: 0}]. The key survives the per-chain merge: the
    [gasLimitBuffer] of every worker configuration built from this global
    configuration, and of every worker [onModuleInit] starts, has it. *)
Theorem gasLimitBuffer_default_key cs lo (h : Heap) :
  config_refs_ok h cs = true →
  ∃ g h1, loadGlobalSubmitterConfig (relayer_submitter (relayerConfig cs)) h
          = (Normal g, h1)
    ∧ is_Some (deref h1 (g_gasLimitBuffer g) !! "default")
    ∧ (∀ r, raw_gasLimitBuffer (relayer_submitter (relayerConfig cs)) = Some r →
         deref h1 (g_gasLimitBuffer g)
         = match deref h r !! "default" with
           | Some _ => deref h r
           | None => <["default" := JNumber 0]> (deref h r)
           end)
    ∧ (raw_gasLimitBuffer (relayer_submitter (relayerConfig cs)) = None →
         deref h1 (g_gasLimitBuffer g) = {[ "default" := JNumber 0 ]})
    ∧ (∀ (entry : string * ChainConfig) wd h2,
         entry ∈ chainsConfig cs →
         loadWorkerConfig cs lo entry.2 g h1 = (Normal wd, h2) →
         is_Some (deref h2 (wd_gasLimitBuffer wd) !! "default"))
    ∧ (∀ r s',
         onModuleInit cs lo (initial_state h) = (r, s') →
         Forall (λ wk, is_Some (deref (heap s')
                                  (wd_gasLimitBuffer (workerData wk))
                                !! "default"))
           (threads s')).
Proof.
  intros [Hraw Hchains]%andb_prop.
  destruct (loadGlobalSubmitterConfig_default _ h Hraw)
    as (g & h1 & Hg & Hlen & Hdef).
  assert (Hchains1 : forallb
    (λ entry, ref_ok h1 (chain_gasLimitBuffer (submitter entry.2)))
    (chainsConfig cs) = true).
  { rewrite forallb_forall in Hchains |- *. intros entry Hin.
    eapply ref_ok_mono; [exact Hlen|]. by apply Hchains. }
  exists g, h1. split; [done|]. split; [apply Hdef|].
  split.
  { intros r Hr. rewrite Hr in Hraw. apply ref_ok_valid in Hraw.
    destruct (loadGlobalSubmitterConfig_given _ r h Hr Hraw) as (g' & Hg' & Href).
    rewrite Hg in Hg'. injection Hg' as <- ->. rewrite Href.
    rewrite deref_insert_eq by done. unfold ensure_default.
    destruct (deref h r !! "default") as [v|].
    - by rewrite bool_decide_eq_true_2.
    - rewrite bool_decide_eq_false_2; [done|]. by intros [? ?]. }
  split.
  { intros Hnone.
    destruct (loadGlobalSubmitterConfig_absent _ h Hnone) as (g' & Hg' & Href).
    rewrite Hg in Hg'. injection Hg' as <- ->. rewrite Href.
    by rewrite deref_app_fresh. }
  split.
  { intros entry wd h2 Hin Hload.
    pose proof (loadWorkerConfig_cases _ _ _ _ _ _ _ Hload) as (_ & _ & Hc).
    destruct Hdef as [Hv [v Hvd]].
    destruct (loadWorkerConfig_normal cs lo entry.2 g h1 _ Hc Hv)
      as (wd' & h'' & Hload' & _ & _ & Hrec & _).
    { apply ref_ok_chain. rewrite forallb_forall in Hchains1.
      apply Hchains1. by apply list_elem_of_In. }
    rewrite Hload in Hload'. injection Hload' as <- <-. rewrite Hrec.
    rewrite transferable_lookup by done.
    destruct (chain_record h1 entry.2 !! "default") as [v'|] eqn:E.
    - exists v'. by apply lookup_union_Some_l.
    - exists v. by rewrite lookup_union_r. }
  intros r s'. rewrite (onModuleInit_unfold _ _ _ _ _ Hg).
  destruct (to_boolean (enabled g)).
  - intros Hrun.
    eapply (start_chains_default cs lo g _ h1) in Hrun; try done.
    eapply Forall_impl; [exact Hrun|]. by intros wk [_ ?].
  - intros [= <- <-]. simpl. constructor.
Qed.

Lemma gasLimitBuffer_default_key_witness :
  ∃ g h1, loadGlobalSubmitterConfig
            (relayer_submitter (relayerConfig example_buffered_service))
            [{[ "erc20" := JNumber 5 ]}] = (Normal g, h1)
    ∧ is_Some (deref h1 (g_gasLimitBuffer g) !! "default")
    ∧ ∀ r s', onModuleInit example_buffered_service 0%nat
                (initial_state [{[ "erc20" := JNumber 5 ]}]) = (r, s') →
              Forall (λ wk, is_Some (deref (heap s')
                                       (wd_gasLimitBuffer (workerData wk))
                                     !! "default"))
                (threads s').
Proof.
  destruct (gasLimitBuffer_default_key example_buffered_service 0%nat
              [{[ "erc20" := JNumber 5 ]}] eq_refl)
    as (g & h1 & Hrun & Hdef & _ & _ & _ & Hall).
  exists g, h1. split; [exact Hrun|]. split; [exact Hdef | exact Hall].
Defined.

(** ** Incentives addresses *)

(** C7 fails as stated: two adapters registered under one name leave a
    single entry, holding the address of the second, so the map does not
    have one entry per adapter. *)
Lemma incentivesAddresses_shared_name :
  ∃ wd h',
    loadWorkerConfig (example_service empty_section [chain_mumbai]
                        [amb_mock; amb_mock_v2])
      0%nat chain_mumbai (global_defaults 0) [{[ "default" := JNumber 0 ]}]
    = (Normal wd, h')
    ∧ wd_incentivesAddresses wd = [("mock", "0xmock2-mumbai")]
    ∧ ¬ Forall2 (entry_of "mumbai") [amb_mock; amb_mock_v2]
          (wd_incentivesAddresses wd).
Proof.
  eexists _, _. split; [vm_compute; reflexivity|]. simpl.
  split; [reflexivity|].
  intros Hall. apply Forall2_length in Hall. discriminate Hall.
Qed.

(** C7, for adapters with pairwise distinct names. [loadWorkerConfig]
    returns whenever every adapter has an address for the chain, and the
    [incentivesAddresses] it returns lists, in registration order, one
    entry per adapter, keyed by the adapter's name and holding the
    address the adapter's lookup returned for the chain id. *)
Theorem incentivesAddresses_one_per_adapter cs lo (cc : ChainConfig)
    g (h : Heap) :
  NoDup (name <$> ambsConfig cs) →
  (lookups_succeed (ambsConfig cs) (chainId cc) = true →
   ∃ wd h', loadWorkerConfig cs lo cc g h = (Normal wd, h'))
  ∧ ∀ wd h', loadWorkerConfig cs lo cc g h = (Normal wd, h') →
      Forall2 (entry_of (chainId cc)) (ambsConfig cs)
        (wd_incentivesAddresses wd).
Proof.
  intros Hnd. split.
  - intros Hok.
    destruct (collect_incentives_succeeds _ _ [] Hok) as (addrs & Hc).
    destruct (loadWorkerConfig cs lo cc g h) as [[wd|e] h'] eqn:Hload.
    + by eexists _, _.
    + apply loadWorkerConfig_cases in Hload as (_ & acc & Hthrow). congruence.
  - intros wd h' Hload.
    apply loadWorkerConfig_cases in Hload as (_ & _ & Hc).
    apply collect_incentives_distinct in Hc as (entries & -> & Hall); [done..|].
    intros amb _. simpl. apply not_elem_of_nil.
Qed.

Lemma incentivesAddresses_one_per_adapter_witness :
  ∃ wd h',
    loadWorkerConfig (example_service empty_section [chain_mumbai]
                        [amb_mock; amb_wormhole])
      0%nat chain_mumbai (global_defaults 0) [{[ "default" := JNumber 0 ]}]
    = (Normal wd, h')
    ∧ Forall2 (entry_of "mumbai") [amb_mock; amb_wormhole]
        (wd_incentivesAddresses wd).
Proof.
  destruct (incentivesAddresses_one_per_adapter
              (example_service empty_section [chain_mumbai]
                 [amb_mock; amb_wormhole])
              0%nat chain_mumbai (global_defaults 0)
              [{[ "default" := JNumber 0 ]}]) as [Hret Hall].
  - apply (bool_decide_unpack _). vm_compute. reflexivity.
  - destruct (Hret eq_refl) as (wd & h' & Hrun).
    exists wd, h'. split; [exact Hrun|]. exact (Hall wd h' Hrun).
Defined.

(** C10. In the [incentivesAddresses] of a worker configuration the entry
    for a name holds the address of the last adapter registered under
    that name; the map never has more entries than there are adapters,
    has exactly as many when the names are pairwise distinct, and has
    fewer for two adapters sharing a name. *)
Theorem incentivesAddresses_last_write_wins cs lo (cc : ChainConfig)
    g (h : Heap) wd h' :
  loadWorkerConfig cs lo cc g h = (Normal wd, h') →
  (∀ pre amb post,
     ambsConfig cs = pre ++ amb :: post →
     name amb ∉ name <$> post →
     ∃ address, getIncentivesAddress amb (chainId cc) = Normal address
       ∧ js_map_get (name amb) (wd_incentivesAddresses wd) = Some address)
  ∧ (js_map_size (wd_incentivesAddresses wd) ≤ length (ambsConfig cs))%nat
  ∧ (NoDup (name <$> ambsConfig cs) →
     js_map_size (wd_incentivesAddresses wd) = length (ambsConfig cs))
  ∧ (∃ wd2 h2,
       loadWorkerConfig (example_service empty_section [chain_mumbai]
                           [amb_mock; amb_mock_v2])
         0%nat chain_mumbai (global_defaults 0) [{[ "default" := JNumber 0 ]}]
       = (Normal wd2, h2)
       ∧ js_map_get "mock" (wd_incentivesAddresses wd2)
         = Some "0xmock2-mumbai"
       ∧ (js_map_size (wd_incentivesAddresses wd2) < 2)%nat).
Proof.
  intros Hload.
  apply loadWorkerConfig_cases in Hload as (_ & _ & Hc).
  split.
  { intros pre amb post Hsplit Hlast. rewrite Hsplit in Hc.
    by eapply collect_incentives_last. }
  split.
  { apply collect_incentives_size in Hc. simpl in Hc. lia. }
  split.
  { intros Hnd.
    apply collect_incentives_distinct in Hc as (entries & -> & Hall); [|done|].
    - simpl. unfold js_map_size. symmetry. by eapply Forall2_length.
    - intros amb _. simpl. apply not_elem_of_nil. }
  eexists _, _. split; [vm_compute; reflexivity|]. simpl.
  split; [reflexivity|]. unfold js_map_size. simpl. lia.
Qed.

Lemma incentivesAddresses_last_write_wins_witness :
  ∃ wd h',
    loadWorkerConfig (example_service empty_section [chain_mumbai]
                        [amb_mock; amb_wormhole; amb_mock_v2])
      0%nat chain_mumbai (global_defaults 0) [{[ "default" := JNumber 0 ]}]
    = (Normal wd, h')
    ∧ js_map_get "mock" (wd_incentivesAddresses wd) = Some "0xmock2-mumbai"
    ∧ (js_map_size (wd_incentivesAddresses wd) ≤ 3)%nat.
Proof.
  destruct (loadWorkerConfig
              (example_service empty_section [chain_mumbai]
                 [amb_mock; amb_wormhole; amb_mock_v2])
              0%nat chain_mumbai (global_defaults 0)
              [{[ "default" := JNumber 0 ]}]) as [[wd|e] h'] eqn:Hload.
  - destruct (incentivesAddresses_last_write_wins _ _ _ _ _ _ _ Hload)
      as (Hlast & Hsize & _).
    destruct (Hlast [amb_mock; amb_wormhole] amb_mock_v2 [] eq_refl)
      as (address & Haddr & Hget).
    + simpl. apply not_elem_of_nil.
    + exists wd, h'. split; [reflexivity|].
      simpl in Haddr. injection Haddr as <-. split; [exact Hget | exact Hsize].
  - vm_compute in Hload. discriminate Hload.
Defined.

(** ** Initialisation *)

(** C5. When the resolved global configuration has a falsy [enabled],
    [onModuleInit] returns normally having written two informational log
    lines, the second reporting the disabled submitter; it creates no
    worker thread and [this.workers] stays empty. [enabled] resolves to a
    falsy value exactly when the section sets it to [false], [0], [NaN]
    or the empty string. *)
Theorem onModuleInit_disabled cs lo (h : Heap) g h1 :
  loadGlobalSubmitterConfig (relayer_submitter (relayerConfig cs)) h
  = (Normal g, h1) →
  to_boolean (enabled g) = false →
  onModuleInit cs lo (initial_state h)
  = (Normal tt,
     {| heap := h1; threads := []; workers := [];
        logs := [log_start; log_disabled] |})
  ∧ raw_enabled (relayer_submitter (relayerConfig cs))
    ∈ [JBool false; JNumber 0; JNaN; JString ""].
Proof.
  intros Hg Hoff. split.
  - rewrite (onModuleInit_unfold _ _ _ _ _ Hg). by rewrite Hoff.
  - destruct (loadGlobalSubmitterConfig_returns
                (relayer_submitter (relayerConfig cs)) h) as (g' & h' & Hg' & He).
    rewrite Hg in Hg'. injection Hg' as <- <-. rewrite He in Hoff.
    destruct (raw_enabled (relayer_submitter (relayerConfig cs)))
      as [| |[]|n| |s]; simpl in Hoff; try discriminate Hoff.
    + set_solver.
    + apply negb_false_iff, Z.eqb_eq in Hoff as ->. set_solver.
    + set_solver.
    + apply negb_false_iff, String.eqb_eq in Hoff as ->. set_solver.
Qed.

Lemma onModuleInit_disabled_witness :
  ∃ s', onModuleInit (example_service disabled_section
                        [chain_mumbai; chain_base] [amb_mock])
          0%nat (initial_state []) = (Normal tt, s')
    ∧ threads s' = [] ∧ workers s' = []
    ∧ logs s' = [log_start; log_disabled].
Proof.
  destruct (onModuleInit_disabled
              (example_service disabled_section [chain_mumbai; chain_base]
                 [amb_mock])
              0%nat []
              {| enabled := JNumber 0;
                 g_newOrdersDelay := JNumber 0;
                 g_retryInterval := JNumber 2000;
                 g_processingInterval := JNumber 100;
                 g_maxTries := JNumber 3;
                 g_maxPendingTransactions := JNumber 1000;
                 g_transactionTimeout := JNumber 600000;
                 g_gasLimitBuffer := 0%nat |}
              [{[ "default" := JNumber 0 ]}]) as [Hrun _].
  - vm_compute. reflexivity.
  - reflexivity.
  - eexists. split; [exact Hrun|]. repeat split; reflexivity.
Defined.

(** C3 fails as stated: with two chains configured and an adapter that
    has no address for the first, [onModuleInit] ends with the lookup's
    exception; nothing is logged about the failure, and the second chain,
    whose configuration resolves, gets no worker. *)
Lemma onModuleInit_failure_not_isolated :
  ∃ e s',
    onModuleInit (example_service empty_section [chain_sepolia; chain_mumbai]
                    [amb_wormhole])
      0%nat (initial_state []) = (Throw e, s')
    ∧ lookups_succeed [amb_wormhole] (chainId chain_mumbai) = true
    ∧ js_map_get (chainId chain_mumbai) (workers s') = None
    ∧ threads s' = []
    ∧ logs s' = [log_start].
Proof.
  eexists _, _. split; [vm_compute; reflexivity|].
  repeat split; reflexivity.
Qed.

(** C3, as the code has it. There is no handler around the construction
    of a chain's worker configuration: when the address lookup throws for
    a chain, [onModuleInit] ends with that exception. The chains before
    it in configuration order, whose configurations resolved, have their
    workers; the failing chain and every chain after it have none, and
    nothing is logged about the failure. *)
Theorem onModuleInit_aborts_at_failing_chain cs lo (h : Heap) pre entry post :
  chainsConfig cs = pre ++ entry :: post →
  to_boolean (override (raw_enabled (relayer_submitter (relayerConfig cs)))
                (JBool true)) = true →
  forallb (λ e, lookups_succeed (ambsConfig cs) (chainId e.2)) pre = true →
  lookups_succeed (ambsConfig cs) (chainId entry.2) = false →
  ∃ e s', onModuleInit cs lo (initial_state h) = (Throw e, s')
    ∧ (∃ acc, collect_incentives (ambsConfig cs) (chainId entry.2) []
              = (Throw e, acc))
    ∧ chain_of <$> threads s' = (λ e, chainId e.2) <$> pre
    ∧ (∀ c, is_Some (js_map_get c (workers s'))
            ↔ c ∈ (λ e, chainId e.2) <$> pre)
    ∧ logs s' = [log_start].
Proof.
  intros Hsplit Hon Hpre Hfail.
  destruct (loadGlobalSubmitterConfig_returns
              (relayer_submitter (relayerConfig cs)) h) as (g & h1 & Hg & He).
  rewrite (onModuleInit_unfold _ _ _ _ _ Hg).
  unfold override in Hon. unfold nullish_coalesce in He. rewrite He, Hon.
  rewrite Hsplit, eff_for_each_app.
  destruct (start_chains_succeed cs lo g pre
              {| heap := h1; threads := []; workers := [];
                 logs := [log_start] |} Hpre)
    as (s1 & Hrun & Hthreads & Hlogs & Hworkers).
  unfold log_start in Hrun. rewrite (eff_bind_normal _ _ _ _ _ Hrun).
  destruct (collect_incentives_fails _ _ [] Hfail) as (e & acc & Hthrow).
  pose proof (loadWorkerConfig_throw cs lo entry.2 g (heap s1) _ _ Hthrow)
    as Hload.
  simpl eff_for_each.
  rewrite (eff_bind_throw _ _ _ _ _ (start_chain_throw _ _ _ _ _ _ _ Hload)).
  rewrite with_heap_same.
  exists e, s1. split; [done|]. split; [by exists acc|].
  split; [exact Hthreads|]. split; [|exact Hlogs].
  intros c. rewrite Hworkers. simpl. split; [|by right].
  intros [[? ?]|?]; [discriminate|done].
Qed.

Lemma onModuleInit_aborts_at_failing_chain_witness :
  ∃ e s',
    onModuleInit (example_service empty_section
                    [chain_mumbai; chain_sepolia; chain_base] [amb_wormhole])
      0%nat (initial_state []) = (Throw e, s')
    ∧ chain_of <$> threads s' = ["mumbai"]
    ∧ logs s' = [log_start].
Proof.
  destruct (onModuleInit_aborts_at_failing_chain
              (example_service empty_section
                 [chain_mumbai; chain_sepolia; chain_base] [amb_wormhole])
              0%nat [] [("mumbai", chain_mumbai)] ("sepolia", chain_sepolia)
              [("base", chain_base)] eq_refl eq_refl eq_refl eq_refl)
    as (e & s' & Hrun & _ & Hthreads & _ & Hlogs).
  exists e, s'. split; [exact Hrun|]. split; [exact Hthreads | exact Hlogs].
Defined.

(** ** Worker faults *)

(** C8. For every worker thread [onModuleInit] has created, whether or
    not initialisation went on to completion, an ['error'] event on the
    worker writes exactly one log entry, at fatal level, carrying the
    error and naming the worker's chain, and an ['exit'] event writes
    exactly one fatal entry naming the exit code and the chain. Handling
    either event changes nothing else: the worker threads, the
    [this.workers] map and the heap are as before, so no worker is
    restarted or replaced and no other chain's worker is touched. *)
Theorem worker_fault_is_logged_once cs lo (h : Heap) r s' w wk :
  onModuleInit cs lo (initial_state h) = (r, s') →
  threads s' !! w = Some wk →
  (∀ error,
     emit w (EvError error) s'
     = (Normal tt,
        {| heap := heap s'; threads := threads s'; workers := workers s';
           logs := logs s' ++
             [{| level := LFatal; log_error := Some error;
                 message := "Error on submitter worker (chain "
                            +:+ chain_of wk +:+ ")." |}] |}))
  ∧ (∀ exitCode,
       emit w (EvExit exitCode) s'
       = (Normal tt,
          {| heap := heap s'; threads := threads s'; workers := workers s';
             logs := logs s' ++
               [{| level := LFatal; log_error := None;
                   message := "Submitter worker exited with code "
                              +:+ number_to_string exitCode
                              +:+ " (chain " +:+ chain_of wk +:+ ")." |}] |})).
Proof.
  intros Hinit Hw.
  apply onModuleInit_listeners in Hinit.
  rewrite Forall_lookup in Hinit. destruct (Hinit w wk Hw) as [Herr Hexit].
  split.
  - intros error. unfold emit, eff_bind, eff_get. rewrite Hw, Herr. reflexivity.
  - intros exitCode. unfold emit, eff_bind, eff_get. rewrite Hw, Hexit.
    reflexivity.
Qed.

Lemma worker_fault_is_logged_once_witness :
  ∃ s', (onModuleInit (example_service empty_section
                         [chain_mumbai; chain_base] [amb_mock])
           0%nat (initial_state [])).2 = s'
    ∧ (emit 1%nat (EvExit 1) s').1 = Normal tt
    ∧ logs (emit 1%nat (EvExit 1) s').2
      = logs s' ++
        [{| level := LFatal; log_error := None;
            message := "Submitter worker exited with code 1 (chain base)." |}]
    ∧ threads (emit 1%nat (EvExit 1) s').2 = threads s'
    ∧ workers (emit 1%nat (EvExit 1) s').2 = workers s'.
Proof.
  destruct (onModuleInit (example_service empty_section
                            [chain_mumbai; chain_base] [amb_mock])
              0%nat (initial_state [])) as [r s'] eqn:Hinit.
  destruct (threads s' !! 1%nat) as [wk|] eqn:Hw.
  - destruct (worker_fault_is_logged_once _ _ _ _ _ _ _ Hinit Hw) as [_ Hexit].
    exists s'. split; [reflexivity|]. rewrite (Hexit 1). simpl.
    assert (Hchain : chain_of wk = "base").
    { vm_compute in Hinit. injection Hinit as _ <-.
      vm_compute in Hw. injection Hw as <-. reflexivity. }
    rewrite Hchain. repeat split; reflexivity.
  - vm_compute in Hinit. injection Hinit as _ <-. discriminate Hw.
Defined.

(** * Further properties of the service *)

(** ** More on the two loaders *)

Lemma override_coalesce (a b : JsValue) : a ?? b = override a b.
Proof. reflexivity. Qed.

Lemma override_defined (a b : JsValue) :
  is_nullish b = false → is_nullish (override a b) = false.
Proof. unfold override. by destruct (is_nullish a) eqn:E. Qed.

Lemma loadGlobalSubmitterConfig_config (raw : RawSubmitterConfig) (h : Heap) :
  ∃ h', loadGlobalSubmitterConfig raw h
        = (Normal (resolve_scalars raw
                     (default (length h) (raw_gasLimitBuffer raw))), h').
Proof.
  unfold_loadGlobal.
  destruct (raw_gasLimitBuffer raw) as [r|];
    unfold eff_bind, eff_ret, new_object, has_property;
    match goal with |- context [negb ?b] => destruct b end; simpl;
    by eexists.
Qed.

Lemma loadWorkerConfig_carried cs lo (cc : ChainConfig) g (h : Heap) wd h' :
  loadWorkerConfig cs lo cc g h = (Normal wd, h') →
  carried_through cs lo cc wd.
Proof.
  unfold_loadWorker.
  destruct (collect_incentives (ambsConfig cs) (chainId cc) [])
    as [[[]|e] acc] eqn:Hc; unfold collect_incentives in Hc;
    unfold eff_bind at 1, eff_local at 1; rewrite Hc; [|done].
  step_read_submitter.
  destruct (chain_gasLimitBuffer (submitter cc)) as [rc|].
  - unfold eff_bind at 1, eff_ret at 1. unfold eff_bind at 1.
    destruct (getChainGasLimitBufferConfig_returns (g_gasLimitBuffer g) rc h)
      as (r1 & h1 & ->).
    unfold eff_ret. intros [= <- <-]. repeat split; reflexivity.
  - unfold eff_bind at 1, new_object at 1. unfold eff_bind at 1.
    destruct (getChainGasLimitBufferConfig_returns (g_gasLimitBuffer g)
                (length h) (h ++ [∅])) as (r1 & h1 & ->).
    unfold eff_ret. intros [= <- <-]. repeat split; reflexivity.
Qed.

(** [loadWorkerConfig] returns only for a chain configuration that has
    its sub-section. *)
Lemma loadWorkerConfig_returns_present cs lo (cv : ChainConfigValue) g
    (h : Heap) wd h' :
  loadWorkerConfig cs lo cv g h = (Normal wd, h') →
  ∃ cc : ChainConfig, cv = chain_value cc.
Proof.
  destruct cv as [id endpoint [section|]].
  - intros _.
    by exists {| chainId := id; rpc := endpoint; submitter := section |}.
  - unfold loadWorkerConfig. cbn [cv_chainId cv_rpc cv_submitter].
    unfold eff_bind at 1, eff_local at 1.
    match goal with |- context [eff_for_each ?body ?l ?init] =>
      destruct (eff_for_each body l init) as [[[]|e] acc]
    end; intros Hrun; discriminate Hrun.
Qed.

Lemma chain_allocs_length (h : Heap) cc g :
  length (chain_allocs h cc g)
  = match chain_gasLimitBuffer (submitter cc) with
    | Some _ => 1%nat
    | None => 2%nat
    end.
Proof. unfold chain_allocs. by destruct (chain_gasLimitBuffer (submitter cc)). Qed.

(** On a heap that holds the two input records, a successful
    [loadWorkerConfig] appends its allocations and returns the last of
    them as the merged record. *)
Lemma loadWorkerConfig_heap cs lo (cc : ChainConfig) g (h : Heap) wd h' :
  valid_ref h (g_gasLimitBuffer g) → chain_ref_valid h cc →
  loadWorkerConfig cs lo cc g h = (Normal wd, h') →
  h' = h ++ chain_allocs h cc g
  ∧ S (wd_gasLimitBuffer wd) = length h'.
Proof.
  intros Hg Hcc. unfold chain_ref_valid, chain_allocs in *. unfold_loadWorker.
  destruct (collect_incentives (ambsConfig cs) (chainId cc) [])
    as [[[]|e] acc] eqn:Hc; unfold collect_incentives in Hc;
    unfold eff_bind at 1, eff_local at 1; rewrite Hc; [|done].
  step_read_submitter.
  destruct (chain_gasLimitBuffer (submitter cc)) as [rc|].
  - unfold eff_bind at 1, eff_ret at 1. unfold eff_bind at 1.
    rewrite getChainGasLimitBufferConfig_run by done.
    unfold eff_ret. intros [= <- <-]. simpl.
    split; [done|]. rewrite length_app. simpl. lia.
  - unfold eff_bind at 1, new_object at 1. unfold eff_bind at 1.
    rewrite getChainGasLimitBufferConfig_run.
    2:{ unfold valid_ref in *. rewrite length_app. lia. }
    2:{ unfold valid_ref in *. rewrite length_app. simpl. lia. }
    unfold eff_ret. intros [= <- <-]. simpl.
    rewrite deref_app_fresh, (left_id_L ∅ (∪)), deref_app_l by done.
    split; [by rewrite <- (assoc_L (++))|].
    rewrite !length_app. simpl. lia.
Qed.

Lemma collect_incentives_first_failure pre amb post chain acc e :
  lookups_succeed pre chain = true →
  getIncentivesAddress amb chain = Throw e →
  ∃ m, collect_incentives (pre ++ amb :: post) chain acc = (Throw e, m).
Proof.
  revert acc. induction pre as [|a pre IH]; intros acc Hpre Hamb; simpl in *.
  - rewrite collect_incentives_cons, Hamb. by eexists.
  - apply andb_prop in Hpre as [Ha Hpre]. rewrite collect_incentives_cons.
    unfold address_found in Ha.
    destruct (getIncentivesAddress a chain); [by apply IH|done].
Qed.

Lemma ensure_default_idemp (m : JsRecord) :
  ensure_default (ensure_default m) = ensure_default m.
Proof.
  unfold ensure_default at 1.
  rewrite bool_decide_eq_true_2; [done|apply ensure_default_has].
Qed.

Lemma ensure_default_present (m : JsRecord) :
  is_Some (m !! "default") → ensure_default m = m.
Proof. intros H. unfold ensure_default. by rewrite bool_decide_eq_true_2. Qed.

(** ** Fields carried through, frames and failures *)

(** X1. The five gas-strategy knobs of a worker configuration are the
    chain-level values as they stand, [undefined] included: two
    resolutions of the same chain against different global
    configurations and heaps agree on them. *)
Theorem gas_knobs_ignore_global cs lo (cc : ChainConfig)
    g g' (h h0 : Heap) wd wd' h' h0' :
  loadWorkerConfig cs lo cc g h = (Normal wd, h') →
  loadWorkerConfig cs lo cc g' h0 = (Normal wd', h0') →
  (wd_maxFeePerGas wd = chain_maxFeePerGas (submitter cc)
   ∧ wd_maxPriorityFeeAdjustmentFactor wd
     = chain_maxPriorityFeeAdjustmentFactor (submitter cc)
   ∧ wd_maxAllowedPriorityFeePerGas wd
     = chain_maxAllowedPriorityFeePerGas (submitter cc)
   ∧ wd_gasPriceAdjustmentFactor wd
     = chain_gasPriceAdjustmentFactor (submitter cc)
   ∧ wd_maxAllowedGasPrice wd = chain_maxAllowedGasPrice (submitter cc))
  ∧ wd_maxFeePerGas wd' = wd_maxFeePerGas wd
  ∧ wd_maxPriorityFeeAdjustmentFactor wd' = wd_maxPriorityFeeAdjustmentFactor wd
  ∧ wd_maxAllowedPriorityFeePerGas wd' = wd_maxAllowedPriorityFeePerGas wd
  ∧ wd_gasPriceAdjustmentFactor wd' = wd_gasPriceAdjustmentFactor wd
  ∧ wd_maxAllowedGasPrice wd' = wd_maxAllowedGasPrice wd.
Proof.
  intros H1 H2.
  apply loadWorkerConfig_carried in H1
    as (_ & _ & _ & _ & A1 & A2 & A3 & A4 & A5).
  apply loadWorkerConfig_carried in H2
    as (_ & _ & _ & _ & B1 & B2 & B3 & B4 & B5).
  rewrite A1, A2, A3, A4, A5, B1, B2, B3, B4, B5. repeat split; reflexivity.
Qed.

Lemma gas_knobs_ignore_global_witness :
  ∃ wd h',
    loadWorkerConfig (example_service empty_section
                        [chain_with_buffer "base" 1] [amb_mock])
      0%nat (chain_with_buffer "base" 1) (global_defaults 0)
      [example_global_buffer; example_chain_buffer] = (Normal wd, h')
    ∧ wd_maxFeePerGas wd = JNumber 200
    ∧ wd_maxAllowedGasPrice wd = JUndefined.
Proof.
  destruct (loadWorkerConfig (example_service empty_section
                                [chain_with_buffer "base" 1] [amb_mock])
              0%nat (chain_with_buffer "base" 1) (global_defaults 0)
              [example_global_buffer; example_chain_buffer])
    as [[wd|e] h'] eqn:Hload; [|vm_compute in Hload; discriminate Hload].
  destruct (gas_knobs_ignore_global _ _ _ _ _ _ _ _ _ _ _ Hload Hload)
    as ((Hfee & _ & _ & _ & Hprice) & _).
  exists wd, h'. split; [reflexivity|]. split; [exact Hfee | exact Hprice].
Defined.

(** X2. [loadWorkerConfig] writes to no object that existed before the
    call. The [gasLimitBuffer] it returns is a new object, which is
    neither the global record nor the chain-level one. When it throws,
    the heap is as before. *)
Theorem loadWorkerConfig_frame cs lo (cc : ChainConfig) g (h : Heap) r h' :
  valid_ref h (g_gasLimitBuffer g) → chain_ref_valid h cc →
  loadWorkerConfig cs lo cc g h = (r, h') →
  (∀ r0, valid_ref h r0 → h' !! r0 = h !! r0)
  ∧ match r with
    | Throw _ => h' = h
    | Normal wd =>
        valid_ref h' (wd_gasLimitBuffer wd)
        ∧ ¬ valid_ref h (wd_gasLimitBuffer wd)
        ∧ wd_gasLimitBuffer wd ≠ g_gasLimitBuffer g
        ∧ chain_gasLimitBuffer (submitter cc) ≠ Some (wd_gasLimitBuffer wd)
    end.
Proof.
  intros Hg Hcc Hload. destruct r as [wd|e].
  - destruct (loadWorkerConfig_heap _ _ _ _ _ _ _ Hg Hcc Hload) as [-> Hlast].
    split; [intros r0 Hr0; by apply lookup_app_l|].
    rewrite length_app, chain_allocs_length in Hlast.
    unfold chain_ref_valid in Hcc. unfold valid_ref in *.
    rewrite length_app, chain_allocs_length.
    destruct (chain_gasLimitBuffer (submitter cc)) as [rc|];
      (split; [lia|]); (split; [lia|]); split; intros Heq;
      try discriminate Heq; try injection Heq as Heq; lia.
  - apply loadWorkerConfig_cases in Hload as [-> _]. done.
Qed.

Lemma loadWorkerConfig_frame_witness :
  ∃ wd h',
    loadWorkerConfig (example_service empty_section
                        [chain_with_buffer "base" 1] [amb_mock])
      0%nat (chain_with_buffer "base" 1) (global_defaults 0)
      [example_global_buffer; example_chain_buffer] = (Normal wd, h')
    ∧ wd_gasLimitBuffer wd ≠ 0%nat
    ∧ h' !! 0%nat = Some example_global_buffer
    ∧ h' !! 1%nat = Some example_chain_buffer.
Proof.
  destruct (loadWorkerConfig (example_service empty_section
                                [chain_with_buffer "base" 1] [amb_mock])
              0%nat (chain_with_buffer "base" 1) (global_defaults 0)
              [example_global_buffer; example_chain_buffer])
    as [[wd|e] h'] eqn:Hload; [|vm_compute in Hload; discriminate Hload].
  assert (Hg : valid_ref [example_global_buffer; example_chain_buffer]
                (g_gasLimitBuffer (global_defaults 0)))
    by (unfold valid_ref; simpl; lia).
  assert (Hcc : chain_ref_valid [example_global_buffer; example_chain_buffer]
                  (chain_with_buffer "base" 1))
    by (unfold chain_ref_valid, valid_ref; simpl; lia).
  destruct (loadWorkerConfig_frame _ _ _ _ _ _ _ Hg Hcc Hload)
    as (Hold & _ & _ & Hglobal & _).
  exists wd, h'. split; [reflexivity|]. split; [exact Hglobal|].
  split; apply Hold; unfold valid_ref; simpl; lia.
Defined.

(** X3. [loadWorkerConfig] fails with the exception of the first adapter,
    in registration order, that has no address for the chain, whatever
    the adapters after it would do, and leaves the heap as it found
    it. *)
Theorem loadWorkerConfig_first_failure cs lo (cc : ChainConfig)
    g (h : Heap) pre amb post e :
  ambsConfig cs = pre ++ amb :: post →
  lookups_succeed pre (chainId cc) = true →
  getIncentivesAddress amb (chainId cc) = Throw e →
  loadWorkerConfig cs lo cc g h = (Throw e, h).
Proof.
  intros Hsplit Hpre Hamb.
  destruct (collect_incentives_first_failure pre amb post (chainId cc) [] e
              Hpre Hamb) as (m & Hc).
  rewrite <- Hsplit in Hc. by eapply loadWorkerConfig_throw.
Qed.

Lemma loadWorkerConfig_first_failure_witness :
  loadWorkerConfig (example_service empty_section [chain_sepolia]
                      [amb_mock; amb_wormhole; amb_mock_v2])
    0%nat chain_sepolia (global_defaults 0) [example_global_buffer]
  = (Throw "No incentives address for chain sepolia", [example_global_buffer]).
Proof.
  exact (loadWorkerConfig_first_failure
           (example_service empty_section [chain_sepolia]
              [amb_mock; amb_wormhole; amb_mock_v2])
           0%nat chain_sepolia (global_defaults 0) [example_global_buffer]
           [amb_mock] amb_wormhole [amb_mock_v2] _ eq_refl eq_refl eq_refl).
Defined.

(** X4. Resolving the global configuration twice is the same as
    resolving it once: with a [gasLimitBuffer] record supplied, a second
    [loadGlobalSubmitterConfig] on the heap the first one left returns
    the same configuration and changes nothing. A supplied record that
    already has the key ["default"] is not written to at all, so the
    value it holds there is kept. *)
Theorem loadGlobalSubmitterConfig_idempotent (raw : RawSubmitterConfig)
    (r : Ref) (h : Heap) g h1 :
  raw_gasLimitBuffer raw = Some r → valid_ref h r →
  loadGlobalSubmitterConfig raw h = (Normal g, h1) →
  loadGlobalSubmitterConfig raw h1 = (Normal g, h1)
  ∧ (is_Some (deref h r !! "default") → h1 = h).
Proof.
  intros Hraw Hr Hrun.
  destruct (loadGlobalSubmitterConfig_given raw r h Hraw Hr) as (g0 & Hg0 & _).
  rewrite Hrun in Hg0. injection Hg0 as <- ->.
  destruct (loadGlobalSubmitterConfig_config raw h) as (h2 & Hcfg).
  rewrite Hrun in Hcfg. injection Hcfg as -> _.
  assert (Hr1 : valid_ref (<[r := ensure_default (deref h r)]> h) r)
    by (unfold valid_ref; by rewrite length_insert).
  split.
  - destruct (loadGlobalSubmitterConfig_given raw r _ Hraw Hr1)
      as (g1 & Hg1 & _).
    destruct (loadGlobalSubmitterConfig_config raw
                (<[r := ensure_default (deref h r)]> h)) as (h3 & Hcfg1).
    rewrite Hg1 in Hcfg1. injection Hcfg1 as -> _.
    rewrite Hg1. rewrite Hraw. simpl. f_equal.
    rewrite deref_insert_eq by done.
    by rewrite ensure_default_idemp, list_insert_insert_eq.
  - intros Hdef. rewrite ensure_default_present by done.
    apply insert_deref_id.
Qed.

Lemma loadGlobalSubmitterConfig_idempotent_witness :
  ∃ g h1,
    loadGlobalSubmitterConfig (buffer_only_section 0) [example_chain_buffer]
    = (Normal g, h1)
    ∧ loadGlobalSubmitterConfig (buffer_only_section 0) h1 = (Normal g, h1).
Proof.
  destruct (loadGlobalSubmitterConfig (buffer_only_section 0)
              [example_chain_buffer]) as [[g|e] h1] eqn:Hrun;
    [|vm_compute in Hrun; discriminate Hrun].
  destruct (loadGlobalSubmitterConfig_idempotent (buffer_only_section 0)
              0%nat [example_chain_buffer] g h1 eq_refl
              ltac:(unfold valid_ref; simpl; lia) Hrun) as [Hagain _].
  exists g, h1. split; [reflexivity | exact Hagain].
Defined.

(** X5. No timing or limit field is left undefined by resolution: each of
    the seven scalars of the global configuration is neither [undefined]
    nor [null], whatever the section holds, and so is each of the six
    merged scalars of every worker configuration resolved against it. *)
Theorem resolved_scalars_defined (raw : RawSubmitterConfig) (h : Heap) g h1 :
  loadGlobalSubmitterConfig raw h = (Normal g, h1) →
  (is_nullish (enabled g) = false
   ∧ is_nullish (g_newOrdersDelay g) = false
   ∧ is_nullish (g_retryInterval g) = false
   ∧ is_nullish (g_processingInterval g) = false
   ∧ is_nullish (g_maxTries g) = false
   ∧ is_nullish (g_maxPendingTransactions g) = false
   ∧ is_nullish (g_transactionTimeout g) = false)
  ∧ ∀ cs lo cc (h2 : Heap) wd h3,
      loadWorkerConfig cs lo cc g h2 = (Normal wd, h3) →
      is_nullish (wd_newOrdersDelay wd) = false
      ∧ is_nullish (wd_retryInterval wd) = false
      ∧ is_nullish (wd_processingInterval wd) = false
      ∧ is_nullish (wd_maxTries wd) = false
      ∧ is_nullish (wd_maxPendingTransactions wd) = false
      ∧ is_nullish (wd_transactionTimeout wd) = false.
Proof.
  intros Hrun.
  destruct (loadGlobalSubmitterConfig_config raw h) as (h' & Hcfg).
  rewrite Hrun in Hcfg. injection Hcfg as -> _. simpl.
  split; [repeat split; by apply override_defined|].
  intros cs lo cv h2 wd h3 Hload.
  destruct (loadWorkerConfig_returns_present _ _ _ _ _ _ _ Hload) as [cc ->].
  apply loadWorkerConfig_cases in Hload
    as (_ & (H1 & H2 & H3 & H4 & H5 & H6) & _).
  rewrite H1, H2, H3, H4, H5, H6, !override_coalesce. simpl.
  repeat split; by do 2 apply override_defined.
Qed.

Lemma resolved_scalars_defined_witness :
  ∃ g h1, loadGlobalSubmitterConfig disabled_section [] = (Normal g, h1)
    ∧ is_nullish (g_maxTries g) = false
    ∧ is_nullish (enabled g) = false.
Proof.
  destruct (loadGlobalSubmitterConfig disabled_section []) as [[g|e] h1] eqn:Hrun;
    [|vm_compute in Hrun; discriminate Hrun].
  destruct (resolved_scalars_defined disabled_section [] g h1 Hrun)
    as ((Hen & _ & _ & _ & Hmax & _) & _).
  exists g, h1. split; [reflexivity|]. split; [exact Hmax | exact Hen].
Defined.

(** ** The loop over the chains, when every chain resolves *)

Lemma chain_record_prefix (h h' : Heap) cc :
  h `prefix_of` h' → chain_ref_valid h cc →
  chain_record h' cc = chain_record h cc.
Proof.
  unfold chain_record, chain_ref_valid.
  destruct (chain_gasLimitBuffer (submitter cc)); [apply deref_prefix|done].
Qed.

Lemma resolved_for_prefix cs lo g (h1 h2 h3 : Heap) entry wk :
  h2 `prefix_of` h3 →
  resolved_for cs lo g h1 h2 entry wk → resolved_for cs lo g h1 h3 entry wk.
Proof.
  intros Hpre (H1 & H2 & H3 & H4 & Hv & Hrec).
  repeat (split; [done|]). split.
  - by eapply valid_ref_prefix.
  - intros k Hk. rewrite (deref_prefix _ _ _ Hpre Hv). by apply Hrec.
Qed.

Lemma start_chains_resolve cs lo g (h1 : Heap) chains s s' :
  valid_ref h1 (g_gasLimitBuffer g) →
  forallb (λ entry, ref_ok h1 (chain_gasLimitBuffer (submitter entry.2))) chains
  = true →
  h1 `prefix_of` heap s →
  eff_for_each (start_chain cs lo g) chains s = (Normal tt, s') →
  ∃ new,
    threads s' = threads s ++ new
    ∧ Forall2 (resolved_for cs lo g h1 (heap s')) chains new
    ∧ heap s `prefix_of` heap s'
    ∧ logs s' = logs s.
Proof.
  intros Hg. revert s.
  induction chains as [|entry chains IH]; intros s Hrefs Hpre Hrun;
    simpl in Hrun, Hrefs.
  - unfold eff_ret in Hrun. injection Hrun as <-. exists [].
    rewrite app_nil_r. repeat split; [constructor|done].
  - apply andb_prop in Hrefs as [Href Hrefs].
    apply eff_bind_inv in Hrun as [([] & s1 & Hstep & Hrest)|(e & _ & Hr)];
      [|discriminate Hr].
    apply start_chain_cases in Hstep
      as [(wd & h' & Hload & _ & ->)|(e & _ & Hr & _)]; [|discriminate Hr].
    pose proof (loadWorkerConfig_cases _ _ _ _ _ _ _ Hload)
      as (Hid & Hmerge & Hc).
    assert (Hcc1 : chain_ref_valid h1 entry.2) by by apply ref_ok_chain.
    assert (Hcc : chain_ref_valid (heap s) entry.2).
    { apply ref_ok_chain. eapply ref_ok_mono; [by apply prefix_length|done]. }
    destruct (loadWorkerConfig_normal cs lo entry.2 g (heap s) _ Hc)
      as (wd' & h'' & Hload' & Hgrow & Hvalid & Hrec & _);
      [by eapply valid_ref_prefix|done|].
    rewrite Hload in Hload'. injection Hload' as <- <-.
    pose proof (loadWorkerConfig_carried _ _ _ _ _ _ _ Hload) as Hcarried.
    apply IH in Hrest as (new & Hthreads & Hall & Hgrow' & Hlogs);
      [|done|simpl; by etrans].
    simpl in *.
    exists (started_worker (chainId entry.2) wd :: new).
    split; [by rewrite Hthreads, <- (assoc_L (++))|].
    split; [|split; [by etrans|done]].
    constructor; [|done].
    apply (resolved_for_prefix _ _ _ _ h'); [done|].
    split; [done|]. split; [done|]. split; [done|].
    split; [done|]. split; [done|]. simpl. intros k Hk.
    rewrite Hrec, transferable_lookup by done.
    rewrite (chain_record_prefix _ _ _ Hpre Hcc1).
    by rewrite (deref_prefix _ _ _ Hpre Hg).
Qed.

(** X6. When [onModuleInit] returns normally with the submitter enabled,
    it has logged the start line only, and the worker threads it created
    match the configured chains one to one, in configuration order: each
    carries the two listeners of its chain and, as data, the chain's id
    and rpc, the relayer's private key, the logger options, the knobs of
    the chain, the merged scalars, the addresses of all adapters, and a
    [gasLimitBuffer] record of its own that reads, under every key other
    than ["__proto__"], like the chain-level record laid over the global
    one as resolved at start-up. *)
Theorem onModuleInit_starts_every_chain cs lo (h : Heap) s' :
  config_refs_ok h cs = true →
  to_boolean (override (raw_enabled (relayer_submitter (relayerConfig cs)))
                (JBool true)) = true →
  onModuleInit cs lo (initial_state h) = (Normal tt, s') →
  ∃ g h1,
    loadGlobalSubmitterConfig (relayer_submitter (relayerConfig cs)) h
    = (Normal g, h1)
    ∧ Forall2 (resolved_for cs lo g h1 (heap s')) (chainsConfig cs) (threads s')
    ∧ logs s' = [log_start].
Proof.
  intros [Hraw Hchains]%andb_prop Hon.
  destruct (loadGlobalSubmitterConfig_default _ h Hraw)
    as (g & h1 & Hg & Hlen & Hvalid & _).
  destruct (loadGlobalSubmitterConfig_returns
              (relayer_submitter (relayerConfig cs)) h) as (g' & h' & Hg' & He).
  rewrite Hg in Hg'. injection Hg' as <- <-.
  assert (Hchains1 : forallb
    (λ entry, ref_ok h1 (chain_gasLimitBuffer (submitter entry.2)))
    (chainsConfig cs) = true).
  { rewrite forallb_forall in Hchains |- *. intros entry Hin.
    eapply ref_ok_mono; [exact Hlen|]. by apply Hchains. }
  rewrite (onModuleInit_unfold _ _ _ _ _ Hg).
  rewrite override_coalesce in He. rewrite He, Hon. intros Hrun.
  apply (start_chains_resolve cs lo g h1) in Hrun
    as (new & Hthreads & Hall & _ & Hlogs); [|done..].
  exists g, h1. split; [done|].
  simpl in Hthreads. rewrite Hthreads. by split.
Qed.

Lemma onModuleInit_starts_every_chain_witness :
  ∃ s', onModuleInit example_two_chain_service 0%nat
          (initial_state [example_global_buffer; example_chain_buffer])
        = (Normal tt, s')
    ∧ chain_of <$> threads s' = ["base"; "mumbai"]
    ∧ logs s' = [log_start].
Proof.
  destruct (onModuleInit example_two_chain_service 0%nat
              (initial_state [example_global_buffer; example_chain_buffer]))
    as [[[]|e] s'] eqn:Hrun; [|vm_compute in Hrun; discriminate Hrun].
  destruct (onModuleInit_starts_every_chain example_two_chain_service 0%nat
              [example_global_buffer; example_chain_buffer] s'
              eq_refl eq_refl Hrun)
    as (g & h1 & _ & Hall & Hlogs).
  exists s'. split; [reflexivity|]. split; [|exact Hlogs].
  simpl in Hall.
  apply Forall2_cons_inv_l in Hall as (w1 & l1 & (_ & (H1 & _) & _) & Hall & ->).
  apply Forall2_cons_inv_l in Hall as (w2 & l2 & (_ & (H2 & _) & _) & Hall & ->).
  apply Forall2_nil_inv_l in Hall as ->.
  simpl. unfold chain_of. rewrite H1, H2. reflexivity.
Defined.

(** ** The registry of workers *)

Lemma latest_thread_snoc_same (ts : list Worker) wk w :
  latest_thread (chain_of wk) w (ts ++ [wk]) ↔ w = length ts.
Proof.
  split.
  - intros [(wk0 & Hw & _) Hlast].
    destruct (decide (w < length ts)%nat) as [Hlt|Hge].
    + exfalso. apply (Hlast (length ts) wk Hlt); [|done].
      rewrite lookup_app_r by lia. by rewrite Nat.sub_diag.
    + apply lookup_lt_Some in Hw. rewrite length_app in Hw. simpl in Hw. lia.
  - intros ->. split.
    + exists wk. split; [|done].
      rewrite lookup_app_r by lia. by rewrite Nat.sub_diag.
    + intros w' wk' Hlt Hw'. apply lookup_lt_Some in Hw'.
      rewrite length_app in Hw'. simpl in Hw'. lia.
Qed.

Lemma latest_thread_snoc_other (ts : list Worker) wk c w :
  chain_of wk ≠ c →
  latest_thread c w (ts ++ [wk]) ↔ latest_thread c w ts.
Proof.
  intros Hne. split.
  - intros [(wk0 & Hw & Hc) Hlast].
    assert (Hlt : (w < length ts)%nat).
    { destruct (decide (w < length ts)%nat) as [|Hge]; [done|].
      pose proof (lookup_lt_Some _ _ _ Hw) as Hlen.
      rewrite length_app in Hlen. simpl in Hlen.
      replace w with (length ts) in Hw by lia.
      rewrite lookup_app_r, Nat.sub_diag in Hw by lia.
      injection Hw as <-. done. }
    split.
    + exists wk0. split; [|done]. by rewrite lookup_app_l in Hw.
    + intros w' wk' Hlt' Hw'. apply (Hlast w' wk' Hlt').
      rewrite lookup_app_l; [done|]. by eapply lookup_lt_Some.
  - intros [(wk0 & Hw & Hc) Hlast]. split.
    + exists wk0. split; [|done].
      rewrite lookup_app_l; [done|]. by eapply lookup_lt_Some.
    + intros w' wk' Hlt' Hw'.
      destruct (decide (w' < length ts)%nat) as [Hin|Hout].
      * rewrite lookup_app_l in Hw' by done. by eapply Hlast.
      * pose proof (lookup_lt_Some _ _ _ Hw') as Hlen.
        rewrite length_app in Hlen. simpl in Hlen.
        replace w' with (length ts) in Hw' by lia.
        rewrite lookup_app_r, Nat.sub_diag in Hw' by lia.
        injection Hw' as <-. done.
Qed.

(** X7. Whatever way [onModuleInit] ends, [this.workers] maps a chain id
    to a worker exactly when that worker is the most recent thread
    started for the chain: every entry points to a live thread of its own
    chain, every chain that has a thread has an entry, and when a chain
    id is configured twice the entry is the later thread, the earlier
    one staying alive outside the map. *)
Theorem workers_map_tracks_latest cs lo (h : Heap) r s' :
  onModuleInit cs lo (initial_state h) = (r, s') →
  ∀ c w, js_map_get c (workers s') = Some w ↔ latest_thread c w (threads s').
Proof.
  assert (Hempty : ∀ c w, js_map_get c ([] : JsMap WorkerRef) = Some w
                          ↔ latest_thread c w []).
  { intros c w. split; [done|]. by intros [(wk & Hw & _) _]. }
  destruct (loadGlobalSubmitterConfig_returns
              (relayer_submitter (relayerConfig cs)) h) as (g & h1 & Hg & _).
  rewrite (onModuleInit_unfold _ _ _ _ _ Hg).
  destruct (to_boolean (enabled g)); [|by intros [= <- <-]].
  apply (eff_for_each_invariant
           (λ s, ∀ c w, js_map_get c (workers s) = Some w
                        ↔ latest_thread c w (threads s))); [|done].
  clear. intros entry s r s' _ Hinv Hstep.
  apply start_chain_cases in Hstep
    as [(wd & h' & Hload & -> & ->)|(e & _ & -> & ->)]; [|done].
  simpl. intros c w.
  apply loadWorkerConfig_cases in Hload as (Hid & _).
  assert (Hchain : chain_of (started_worker (chainId entry.2) wd)
                   = chainId entry.2) by done.
  destruct (decide (chainId entry.2 = c)) as [<-|Hne].
  - rewrite js_map_get_set_eq.
    pose proof (latest_thread_snoc_same (threads s)
                  (started_worker (chainId entry.2) wd) w) as Hsame.
    rewrite Hchain in Hsame. rewrite Hsame.
    split; [by intros [= <-]|by intros ->].
  - rewrite js_map_get_set_ne by done.
    rewrite latest_thread_snoc_other by by rewrite Hchain. apply Hinv.
Qed.

Lemma workers_map_tracks_latest_witness :
  ∃ s', (onModuleInit example_repeated_chain_service 0%nat
           (initial_state [])).2 = s'
    ∧ length (threads s') = 3%nat
    ∧ latest_thread "mumbai" 2 (threads s')
    ∧ ¬ latest_thread "mumbai" 0 (threads s').
Proof.
  destruct (onModuleInit example_repeated_chain_service 0%nat
              (initial_state [])) as [r s'] eqn:Hinit.
  pose proof (workers_map_tracks_latest _ _ _ _ _ Hinit) as Hmap.
  exists s'. split; [reflexivity|].
  assert (Hget : js_map_get "mumbai" (workers s') = Some 2%nat
                 ∧ length (threads s') = 3%nat).
  { vm_compute in Hinit. injection Hinit as _ <-. split; reflexivity. }
  destruct Hget as [Hget Hlen]. split; [exact Hlen|]. split.
  - apply Hmap. exact Hget.
  - intros Hold. apply Hmap in Hold. rewrite Hget in Hold. discriminate Hold.
Defined.

(** X8. No worker shares its [gasLimitBuffer] record: the records of the
    worker threads [onModuleInit] created are pairwise distinct objects,
    all allocated after the global configuration was resolved, so none of
    them is the global record or a chain-level record of the
    configuration. *)
Theorem workers_own_their_buffers cs lo (h : Heap) r s' :
  config_refs_ok h cs = true →
  onModuleInit cs lo (initial_state h) = (r, s') →
  ∃ g h1,
    loadGlobalSubmitterConfig (relayer_submitter (relayerConfig cs)) h
    = (Normal g, h1)
    ∧ NoDup ((λ wk, wd_gasLimitBuffer (workerData wk)) <$> threads s')
    ∧ Forall (λ wk,
        (length h ≤ length h1 ≤ wd_gasLimitBuffer (workerData wk))%nat
        ∧ wd_gasLimitBuffer (workerData wk) ≠ g_gasLimitBuffer g)
        (threads s').
Proof.
  intros [Hraw Hchains]%andb_prop.
  destruct (loadGlobalSubmitterConfig_default _ h Hraw)
    as (g & h1 & Hg & Hlen & Hvalid & _).
  rewrite (onModuleInit_unfold _ _ _ _ _ Hg). intros Hrun.
  exists g, h1. split; [done|].
  set (buffer := λ wk : Worker, wd_gasLimitBuffer (workerData wk)).
  cut (h1 `prefix_of` heap s'
       ∧ NoDup (buffer <$> threads s')
       ∧ Forall (λ wk, (length h1 ≤ buffer wk < length (heap s'))%nat)
           (threads s')).
  { intros (_ & Hnd & Hall). split; [done|].
    eapply Forall_impl; [exact Hall|]. unfold valid_ref in Hvalid.
    intros wk Hwk. unfold buffer in Hwk. simpl in Hwk. split; lia. }
  destruct (to_boolean (enabled g)).
  2:{ injection Hrun as <- <-. simpl.
      split; [done|]. split; [apply NoDup_nil_2|constructor]. }
  revert Hrun.
  apply (eff_for_each_invariant (λ s, h1 `prefix_of` heap s
    ∧ NoDup (buffer <$> threads s)
    ∧ Forall (λ wk, (length h1 ≤ buffer wk < length (heap s))%nat)
        (threads s))).
  2:{ simpl. split; [done|]. split; [apply NoDup_nil_2|constructor]. }
  clear r s'. intros entry s r s' Hin (Hpre & Hnd & Hall) Hstep.
  apply start_chain_cases in Hstep
    as [(wd & h' & Hload & -> & ->)|(e & _ & -> & ->)]; [|done].
  simpl.
  rewrite forallb_forall in Hchains.
  assert (Hcc : chain_ref_valid (heap s) entry.2).
  { apply ref_ok_chain. eapply ref_ok_mono.
    - etrans; [exact Hlen|by apply prefix_length].
    - apply Hchains. by apply list_elem_of_In. }
  destruct (loadWorkerConfig_heap _ _ _ _ _ _ _
              (valid_ref_prefix _ _ _ Hpre Hvalid) Hcc Hload) as [-> Hlast].
  pose proof (prefix_length _ _ Hpre) as Hlen1.
  assert (Hfresh : (length (heap s) ≤ wd_gasLimitBuffer wd)%nat).
  { rewrite length_app, chain_allocs_length in Hlast.
    destruct (chain_gasLimitBuffer (submitter entry.2)); lia. }
  split; [etrans; [exact Hpre|by apply prefix_app_r]|].
  split.
  - rewrite fmap_app. apply NoDup_app. split; [done|]. split.
    + intros x Hx Hx'. apply list_elem_of_singleton in Hx'. subst x.
      apply list_elem_of_fmap in Hx as (wk & Heq & Hwk).
      rewrite Forall_forall in Hall. specialize (Hall wk Hwk).
      unfold buffer in *. simpl in Heq. lia.
    + apply NoDup_singleton.
  - apply Forall_app. split.
    + eapply Forall_impl; [exact Hall|]. intros wk ?.
      rewrite length_app. simpl in *. lia.
    + apply Forall_singleton. unfold buffer. simpl. lia.
Qed.

Lemma workers_own_their_buffers_witness :
  ∃ s', (onModuleInit example_two_chain_service 0%nat
           (initial_state [example_global_buffer; example_chain_buffer])).2 = s'
    ∧ NoDup ((λ wk, wd_gasLimitBuffer (workerData wk)) <$> threads s').
Proof.
  destruct (onModuleInit example_two_chain_service 0%nat
              (initial_state [example_global_buffer; example_chain_buffer]))
    as [r s'] eqn:Hrun.
  destruct (workers_own_their_buffers example_two_chain_service 0%nat
              [example_global_buffer; example_chain_buffer] r s' eq_refl Hrun)
    as (g & h1 & _ & Hnd & _).
  exists s'. split; [reflexivity | exact Hnd].
Defined.

(** X9. [onModuleInit] writes nothing but informational lines, and at
    most two. With a truthy [enabled] it writes the start line only,
    however it ends, and logs nothing per chain, neither progress nor
    failure. With a falsy [enabled] it writes the start line and the
    line reporting the disabled submitter, and returns normally without
    a worker. *)
Theorem onModuleInit_log cs lo (h : Heap) r s' :
  onModuleInit cs lo (initial_state h) = (r, s') →
  if to_boolean (override (raw_enabled (relayer_submitter (relayerConfig cs)))
                   (JBool true))
  then logs s' = [log_start]
  else logs s' = [log_start; log_disabled] ∧ r = Normal tt ∧ threads s' = [].
Proof.
  destruct (loadGlobalSubmitterConfig_returns
              (relayer_submitter (relayerConfig cs)) h) as (g & h1 & Hg & He).
  rewrite (onModuleInit_unfold _ _ _ _ _ Hg).
  rewrite override_coalesce in He. rewrite <- He.
  destruct (to_boolean (enabled g)).
  - apply (eff_for_each_invariant (λ s, logs s = [log_start])); [|done].
    clear. intros entry s r s' _ Hinv Hstep.
    apply start_chain_cases in Hstep
      as [(wd & h' & Hload & -> & ->)|(e & _ & -> & ->)]; done.
  - intros [= <- <-]. by repeat split.
Qed.

Lemma onModuleInit_log_witness :
  ∃ e s', onModuleInit (example_service empty_section
                          [chain_mumbai; chain_sepolia] [amb_wormhole])
            0%nat (initial_state []) = (Throw e, s')
    ∧ logs s' = [log_start].
Proof.
  destruct (onModuleInit (example_service empty_section
                            [chain_mumbai; chain_sepolia] [amb_wormhole])
              0%nat (initial_state [])) as [[[]|e] s'] eqn:Hinit;
    [vm_compute in Hinit; discriminate Hinit|].
  exists e, s'. split; [reflexivity|].
  exact (onModuleInit_log _ _ _ _ _ Hinit).
Defined.

(** ** Faults reported by the workers *)

Lemma emit_started s w wk ev :
  Forall listeners_ok (threads s) →
  threads s !! w = Some wk →
  emit w ev s = (Normal tt, with_logs (logs s ++ [fault_entry wk ev]) s).
Proof.
  intros Hall Hw. rewrite Forall_lookup in Hall.
  destruct (Hall w wk Hw) as [Herr Hexit].
  unfold emit, eff_bind, eff_get. rewrite Hw.
  destruct ev as [error|exitCode]; [rewrite Herr|rewrite Hexit]; reflexivity.
Qed.

Lemma deliver_started events s :
  Forall listeners_ok (threads s) →
  Forall (λ p, p.1 < length (threads s))%nat events →
  ∃ entries,
    deliver events s = (Normal tt, with_logs (logs s ++ entries) s)
    ∧ Forall2 (λ p e, ∃ wk, threads s !! p.1 = Some wk
                            ∧ e = fault_entry wk p.2) events entries.
Proof.
  intros Hok. revert s Hok.
  induction events as [|[w ev] events IH]; intros s Hok Hall.
  - exists []. split; [|constructor].
    unfold deliver. simpl. unfold eff_ret, with_logs.
    rewrite app_nil_r. by destruct s.
  - apply Forall_cons in Hall as [Hw Hall]. simpl in Hw.
    destruct (lookup_lt_is_Some_2 _ _ Hw) as [wk Hwk].
    unfold deliver. simpl.
    rewrite (eff_bind_normal _ _ _ _ _ (emit_started s w wk ev Hok Hwk)).
    destruct (IH (with_logs (logs s ++ [fault_entry wk ev]) s) Hok Hall)
      as (entries & Hrun & Hentries).
    exists (fault_entry wk ev :: entries). split.
    + unfold deliver in Hrun. rewrite Hrun. unfold with_logs. simpl.
      by rewrite <- (assoc_L (++)).
    + constructor; [by exists wk|done].
Qed.

(** X10. Faults accumulate in the log, none dropped and none merged:
    after [onModuleInit], any sequence of ['error'] and ['exit'] events
    on the worker threads it created is handled without an exception and
    appends one fatal entry per event, in the order of the events, each
    naming the chain of the worker the event came from; an ['error']
    followed by the ['exit'] of the same worker is thus reported twice.
    The worker threads, [this.workers] and the heap stay as they were. *)
Theorem faults_accumulate cs lo (h : Heap) r s' events :
  onModuleInit cs lo (initial_state h) = (r, s') →
  Forall (λ p, p.1 < length (threads s'))%nat events →
  ∃ entries,
    deliver events s'
    = (Normal tt,
       {| heap := heap s'; threads := threads s'; workers := workers s';
          logs := logs s' ++ entries |})
    ∧ Forall2 (λ p e, ∃ wk, threads s' !! p.1 = Some wk
                            ∧ e = fault_entry wk p.2) events entries.
Proof.
  intros Hinit Hall. apply onModuleInit_listeners in Hinit.
  exact (deliver_started events s' Hinit Hall).
Qed.

Lemma faults_accumulate_witness :
  ∃ s' s'',
    onModuleInit example_two_chain_service 0%nat
      (initial_state [example_global_buffer; example_chain_buffer])
    = (Normal tt, s')
    ∧ deliver [(0%nat, EvError "boom"); (0%nat, EvExit 1)] s'
      = (Normal tt, s'')
    ∧ length (logs s'') = (length (logs s') + 2)%nat
    ∧ threads s'' = threads s'.
Proof.
  destruct (onModuleInit example_two_chain_service 0%nat
              (initial_state [example_global_buffer; example_chain_buffer]))
    as [r s'] eqn:Hinit.
  assert (Hr : r = Normal tt ∧ length (threads s') = 2%nat).
  { vm_compute in Hinit. injection Hinit as <- <-. split; reflexivity. }
  destruct Hr as [-> Hlen].
  assert (Hall : Forall (λ p : nat * WorkerEvent, p.1 < length (threads s'))%nat
                   [(0%nat, EvError "boom"); (0%nat, EvExit 1)]).
  { rewrite Hlen. repeat constructor; simpl; lia. }
  destruct (faults_accumulate _ _ _ _ _ _ Hinit Hall)
    as (entries & Hrun & Hentries).
  exists s'. eexists. split; [reflexivity|]. split; [exact Hrun|].
  simpl. rewrite length_app, <- (Forall2_length _ _ _ Hentries).
  split; reflexivity.
Defined.

Lemma string_app_length (s t : string) :
  String.length (s +:+ t) = (String.length s + String.length t)%nat.
Proof. induction s as [|a s IH]; simpl; [done|by rewrite IH]. Qed.

Lemma string_app_inv_tail (s1 s2 t : string) :
  s1 +:+ t = s2 +:+ t → s1 = s2.
Proof.
  revert s2. induction s1 as [|a s1 IH]; intros [|b s2] Heq; simpl in Heq.
  - done.
  - apply (f_equal String.length) in Heq. simpl in Heq.
    rewrite !string_app_length in Heq. simpl in Heq. lia.
  - apply (f_equal String.length) in Heq. simpl in Heq.
    rewrite !string_app_length in Heq. simpl in Heq. lia.
  - injection Heq as -> Heq. f_equal. by apply IH.
Qed.

(** X11. The fatal line tells the chains apart: the listeners of two
    chains with different ids never write the same message, be it for an
    error or for an exit with a given code. *)
Theorem fatal_message_names_the_chain s s0 :
  (∀ l l' error,
     el_chainId l ≠ el_chainId l' →
     logs (run_error_listener l error s).2
     ≠ logs (run_error_listener l' error s).2)
  ∧ (∀ l l' exitCode,
       xl_chainId l ≠ xl_chainId l' →
       logs (run_exit_listener l exitCode s0).2
       ≠ logs (run_exit_listener l' exitCode s0).2).
Proof.
  split.
  - intros l l' error Hne Heq. apply Hne.
    unfold run_error_listener, logger_fatal, eff_modify in Heq. simpl in Heq.
    apply app_inv_head in Heq. injection Heq as Heq.
    apply (inj (String.app _)) in Heq. by apply string_app_inv_tail in Heq.
  - intros l l' exitCode Hne Heq. apply Hne.
    unfold run_exit_listener, logger_fatal, eff_modify in Heq. simpl in Heq.
    apply app_inv_head in Heq. injection Heq as Heq.
    do 3 apply (inj (String.app _)) in Heq.
    by apply string_app_inv_tail in Heq.
Qed.

Lemma fatal_message_names_the_chain_witness :
  logs (run_exit_listener {| xl_chainId := "base" |} 1 (initial_state [])).2
  ≠ logs (run_exit_listener {| xl_chainId := "mumbai" |} 1 (initial_state [])).2.
Proof.
  apply (proj2 (fatal_message_names_the_chain (initial_state [])
                  (initial_state []))).
  simpl. discriminate.
Defined.

(** ** What resolution leaves alone *)

Lemma ensure_default_other (m : JsRecord) (k : string) :
  k ≠ "default" → ensure_default m !! k = m !! k.
Proof.
  intros Hk. unfold ensure_default. case_bool_decide; [done|].
  by rewrite lookup_insert_ne.
Qed.

Lemma loadGlobalSubmitterConfig_keeps (raw : RawSubmitterConfig)
    (h : Heap) g h1 r0 k :
  ref_ok h (raw_gasLimitBuffer raw) = true →
  loadGlobalSubmitterConfig raw h = (Normal g, h1) →
  valid_ref h r0 →
  (raw_gasLimitBuffer raw = Some r0 → k ≠ "default") →
  deref h1 r0 !! k = deref h r0 !! k.
Proof.
  intros Hok Hrun Hr0 Hk.
  destruct (raw_gasLimitBuffer raw) as [r|] eqn:Hraw.
  - apply ref_ok_valid in Hok.
    destruct (loadGlobalSubmitterConfig_given raw r h Hraw Hok) as (g0 & Hg0 & _).
    rewrite Hrun in Hg0. injection Hg0 as _ ->.
    destruct (decide (r = r0)) as [->|Hne].
    + rewrite deref_insert_eq by done. apply ensure_default_other. by apply Hk.
    + by rewrite deref_insert_ne.
  - destruct (loadGlobalSubmitterConfig_absent raw h Hraw) as (g0 & Hg0 & _).
    rewrite Hrun in Hg0. injection Hg0 as _ ->. by rewrite deref_app_l.
Qed.

Lemma start_chains_heap_grows cs lo g (h1 : Heap) chains s r s' :
  valid_ref h1 (g_gasLimitBuffer g) →
  forallb (λ entry, ref_ok h1 (chain_gasLimitBuffer (submitter entry.2))) chains
  = true →
  h1 `prefix_of` heap s →
  eff_for_each (start_chain cs lo g) chains s = (r, s') →
  h1 `prefix_of` heap s'.
Proof.
  intros Hg Hchains.
  apply (eff_for_each_invariant (λ s, h1 `prefix_of` heap s)).
  intros entry s0 r0 s0' Hin Hpre Hstep.
  apply start_chain_cases in Hstep
    as [(wd & h' & Hload & -> & ->)|(e & _ & -> & ->)]; [|done].
  simpl. rewrite forallb_forall in Hchains.
  assert (Hcc : chain_ref_valid (heap s0) entry.2).
  { apply ref_ok_chain. eapply ref_ok_mono; [by apply prefix_length|].
    apply Hchains. by apply list_elem_of_In. }
  destruct (loadWorkerConfig_heap _ _ _ _ _ _ _
              (valid_ref_prefix _ _ _ Hpre Hg) Hcc Hload) as [-> _].
  etrans; [exact Hpre|by apply prefix_app_r].
Qed.

(** X12. [loadGlobalSubmitterConfig] changes at most one property of one
    object: of everything on the heap before the call, only the key
    ["default"] of the supplied [gasLimitBuffer] record can read
    differently afterwards. The [gasLimitBuffer] of the result is the
    supplied record when there is one, and a new object otherwise. *)
Theorem loadGlobalSubmitterConfig_frame (raw : RawSubmitterConfig) (h : Heap)
    g h1 :
  ref_ok h (raw_gasLimitBuffer raw) = true →
  loadGlobalSubmitterConfig raw h = (Normal g, h1) →
  (∀ r0 k, valid_ref h r0 →
           (raw_gasLimitBuffer raw = Some r0 → k ≠ "default") →
           deref h1 r0 !! k = deref h r0 !! k)
  ∧ match raw_gasLimitBuffer raw with
    | Some r => g_gasLimitBuffer g = r
    | None => valid_ref h1 (g_gasLimitBuffer g)
              ∧ ¬ valid_ref h (g_gasLimitBuffer g)
    end.
Proof.
  intros Hok Hrun. split.
  - intros r0 k. by apply (loadGlobalSubmitterConfig_keeps raw h g).
  - destruct (raw_gasLimitBuffer raw) as [r|] eqn:Hraw.
    + apply ref_ok_valid in Hok.
      destruct (loadGlobalSubmitterConfig_given raw r h Hraw Hok)
        as (g0 & Hg0 & Href).
      rewrite Hrun in Hg0. by injection Hg0 as <- _.
    + destruct (loadGlobalSubmitterConfig_absent raw h Hraw)
        as (g0 & Hg0 & Href).
      rewrite Hrun in Hg0. injection Hg0 as <- ->. rewrite Href.
      unfold valid_ref. rewrite length_app. simpl. lia.
Qed.

Lemma loadGlobalSubmitterConfig_frame_witness :
  ∃ g h1,
    loadGlobalSubmitterConfig (buffer_only_section 1)
      [example_global_buffer; example_chain_buffer] = (Normal g, h1)
    ∧ g_gasLimitBuffer g = 1%nat
    ∧ deref h1 1%nat !! "erc20" = Some (JNumber 10)
    ∧ deref h1 0%nat !! "default" = Some (JNumber 0).
Proof.
  destruct (loadGlobalSubmitterConfig (buffer_only_section 1)
              [example_global_buffer; example_chain_buffer])
    as [[g|e] h1] eqn:Hrun; [|vm_compute in Hrun; discriminate Hrun].
  destruct (loadGlobalSubmitterConfig_frame (buffer_only_section 1)
              [example_global_buffer; example_chain_buffer] g h1 eq_refl Hrun)
    as [Hkeep Href].
  exists g, h1. split; [reflexivity|]. split; [exact Href|]. split.
  - rewrite Hkeep; [by vm_compute | unfold valid_ref; simpl; lia | discriminate].
  - rewrite Hkeep; [by vm_compute | unfold valid_ref; simpl; lia |].
    simpl. intros Heq. discriminate Heq.
Defined.

(** X13. Initialisation leaves the configuration it was given as it
    found it, with one exception: of all the objects on the heap before
    [onModuleInit], only the key ["default"] of the global
    [gasLimitBuffer] record can read differently afterwards, however
    initialisation ends. A chain-level record that is not the very
    object given as the global record is therefore unchanged. *)
Theorem onModuleInit_frame cs lo (h : Heap) r s' :
  config_refs_ok h cs = true →
  onModuleInit cs lo (initial_state h) = (r, s') →
  (∀ r0 k, valid_ref h r0 →
           (raw_gasLimitBuffer (relayer_submitter (relayerConfig cs))
            = Some r0 → k ≠ "default") →
           deref (heap s') r0 !! k = deref h r0 !! k)
  ∧ ∀ entry rc,
      entry ∈ chainsConfig cs →
      chain_gasLimitBuffer (submitter entry.2) = Some rc →
      raw_gasLimitBuffer (relayer_submitter (relayerConfig cs)) ≠ Some rc →
      deref (heap s') rc = deref h rc.
Proof.
  intros Hok. pose proof Hok as [Hraw Hchains]%andb_prop.
  destruct (loadGlobalSubmitterConfig_default _ h Hraw)
    as (g & h1 & Hg & Hlen & Hvalid & _).
  rewrite (onModuleInit_unfold _ _ _ _ _ Hg). intros Hrun.
  assert (Hpre : h1 `prefix_of` heap s').
  { assert (Hchains1 : forallb
      (λ entry, ref_ok h1 (chain_gasLimitBuffer (submitter entry.2)))
      (chainsConfig cs) = true).
    { rewrite forallb_forall in Hchains |- *. intros entry Hin.
      eapply ref_ok_mono; [exact Hlen|]. by apply Hchains. }
    destruct (to_boolean (enabled g)).
    - refine (start_chains_heap_grows cs lo g h1 _ _ r s' Hvalid Hchains1
                _ Hrun). done.
    - by injection Hrun as <- <-. }
  assert (Hkeep : ∀ r0 k, valid_ref h r0 →
    (raw_gasLimitBuffer (relayer_submitter (relayerConfig cs)) = Some r0 →
     k ≠ "default") →
    deref (heap s') r0 !! k = deref h r0 !! k).
  { intros r0 k Hr0 Hk.
    rewrite (deref_prefix _ _ _ Hpre).
    - by apply (loadGlobalSubmitterConfig_keeps
                  (relayer_submitter (relayerConfig cs)) h g).
    - unfold valid_ref in *. lia. }
  split; [exact Hkeep|].
  intros entry rc Hin Hrc Hne. apply map_eq. intros k.
  apply Hkeep; [|done].
  rewrite forallb_forall in Hchains.
  apply list_elem_of_In, Hchains in Hin. rewrite Hrc in Hin.
  by apply ref_ok_valid.
Qed.

Lemma onModuleInit_frame_witness :
  ∃ s', (onModuleInit example_two_chain_service 0%nat
           (initial_state [example_global_buffer; example_chain_buffer])).2 = s'
    ∧ deref (heap s') 1%nat = example_chain_buffer
    ∧ deref (heap s') 0%nat !! "erc20" = Some (JNumber 5).
Proof.
  destruct (onModuleInit example_two_chain_service 0%nat
              (initial_state [example_global_buffer; example_chain_buffer]))
    as [r s'] eqn:Hrun.
  destruct (onModuleInit_frame example_two_chain_service 0%nat
              [example_global_buffer; example_chain_buffer] r s' eq_refl Hrun)
    as [Hkeep Hchain].
  exists s'. split; [reflexivity|]. split.
  - apply (Hchain ("base", chain_with_buffer "base" 1) 1%nat).
    + simpl. by left.
    + reflexivity.
    + discriminate.
  - rewrite Hkeep; [by vm_compute | unfold valid_ref; simpl; lia | discriminate].
Defined.
